(** * Asset naming and review logic of the creative auto-namer front end

    A shallow embedding of the TypeScript sources:
    - the type declarations ([types/index.ts], two revisions of which are in
      the repository),
    - the asset table component ([generateAdName], [generateNewFileName],
      [duplicateFilenames]),
    - the review page ([handleBulkApply], [handlePasteToSheet],
      [sortedGroups]), the group card ([minConfidence]) and the API client
      ([api.updateGroup], [api.bulkApply]).

    The server behind the API is not part of the sources; what the
    development needs of it is modelled from the specification and marked
    as such.

    Conventions of the embedding.
    - A JavaScript [string] is a Rocq [string].  The only characters the
      modelled code inspects are ['.'], ['_'] and the ASCII digits, and these
      never occur inside the encoding of another character, so splitting,
      joining and replacing behave the same on the encoded text.
    - A JavaScript [number] that holds an integer (ad numbers, indices,
      sizes) is a [Z]; [String(n)] is the plain decimal numeral, which is what
      JavaScript prints for every integer below 10^21.  Scores and ratios are
      rationals ([Q]); only comparisons are made on them.
    - An optional field [f?: T] is an [option T]. *)

From Stdlib Require Import ZArith List String Ascii Bool Lia.
From Stdlib Require Import QArith Qminmax Permutation Sorted DecimalString.
From Stdlib Require DecimalPos DecimalFacts.
From stdpp Require Import gmap strings list.

Local Open Scope string_scope.
Local Open Scope Z_scope.

(** ** JavaScript string primitives used by the sources *)

Module JS.

(** Truthiness of a string: every string but the empty one. *)
Definition truthy (s : string) : bool :=
  match s with
  | EmptyString => false
  | String _ _ => true
  end.

(** Truthiness of an optional string: [undefined] is falsy too. *)
Definition truthy_opt (o : option string) : bool :=
  match o with
  | Some s => truthy s
  | None => false
  end.

(** [a || b] on strings. *)
Definition or_else (a b : string) : string :=
  if truthy a then a else b.

(** [String(n)] for an integer [n]. *)
Definition String_ (n : Z) : string :=
  NilZero.string_of_int (Z.to_int n).

(** The filler of [padStart]: [fillLen] characters read cyclically from
    [padString]; [cur] is what is left of the current round. *)
Fixpoint filler (padString cur : string) (fillLen : nat) : string :=
  match fillLen with
  | O => EmptyString
  | S k =>
      match cur with
      | String c rest => String c (filler padString rest k)
      | EmptyString =>
          match padString with
          | String c rest => String c (filler padString rest k)
          | EmptyString => EmptyString
          end
      end
  end.

(** [s.padStart(targetLength, padString)]. *)
Definition padStart (s : string) (targetLength : nat) (padString : string)
  : string :=
  if (targetLength <=? String.length s)%nat then s
  else if truthy padString
       then filler padString padString (targetLength - String.length s)
              +:+ s
       else s.

(** [s.split(sep)] for a one-character separator: the segments between
    the occurrences of [sep]; never the empty array. *)
Fixpoint split (sep : ascii) (s : string) : list string :=
  match s with
  | EmptyString => [EmptyString]
  | String c rest =>
      if Ascii.eqb c sep then EmptyString :: split sep rest
      else match split sep rest with
           | seg :: segs => String c seg :: segs
           | [] => [String c EmptyString]
           end
  end.

(** [arr.pop()] read only for its result: the last element, [undefined]
    on the empty array. *)
Definition pop (arr : list string) : option string := List.last (Some <$> arr) None.

(** [parts.join(sep)]. *)
Fixpoint join (sep : string) (parts : list string) : string :=
  match parts with
  | [] => EmptyString
  | [p] => p
  | p :: rest => p +:+ sep +:+ join sep rest
  end.

(** [s.replace(/__+/g, '_')]: scanning from the left, every maximal run
    of two or more underscores becomes one underscore.  [in_run] tells
    that the previous character was an underscore (already emitted). *)
Fixpoint collapse_from (in_run : bool) (s : string) : string :=
  match s with
  | EmptyString => EmptyString
  | String c rest =>
      if Ascii.eqb c "_"
      then if in_run then collapse_from true rest
           else String c (collapse_from true rest)
      else String c (collapse_from false rest)
  end.

Definition replace_underscore_runs (s : string) : string :=
  collapse_from false s.

End JS.

(** ** Data model ([types/index.ts]) *)

Inductive AssetType := IMG | VID.

Inductive Placement := story | feed | unknown.

Inductive GroupType := standard | carousel | single.

(** The string a value of a union of string literals is at run time. *)
Definition AssetType_token (t : AssetType) : string :=
  match t with IMG => "IMG" | VID => "VID" end.

Definition Placement_token (p : Placement) : string :=
  match p with story => "story" | feed => "feed" | unknown => "unknown" end.


Module AssetMetadata.
Record t := mk {
  width : Z;
  height : Z;
  duration : option Q;
  aspect_ratio : Q
}.
End AssetMetadata.

Module Asset.
Record t := mk {
  id : string;
  name : string;
  path : string;
  asset_type : AssetType;
  size_bytes : option Z
}.
End Asset.

Module ProcessedAsset.
Record t := mk {
  asset : Asset.t;
  metadata : AssetMetadata.t;
  placement : Placement;
  ocr_text : string;
  fingerprint : string;
  frame_paths : list string;
  thumbnail_url : option string;
  headline : string;
  description : string;
  custom_filename : option string
}.
End ProcessedAsset.

Module ConfidenceScores.
Record t := mk {
  group : Q;
  product : Q;
  angle : Q;
  offer : Q
}.
End ConfidenceScores.

Module AdGroup.
Record t := mk {
  id : string;
  group_type : GroupType;
  assets : list ProcessedAsset.t;
  ad_number : Z;
  product : string;
  angle : string;
  hook : string;
  creator : string;
  offer : bool;
  campaign : string;
  date : string;
  confidence : ConfidenceScores.t;
  format_token : string;
  primary_text : string;
  headline : string;
  description : string;
  cta : string;
  url : string;
  comment_media_buyer : string;
  comment_client : string
}.
End AdGroup.

Module GroupedAssets.
Record t := mk {
  groups : list AdGroup.t;
  ungrouped : list ProcessedAsset.t
}.
End GroupedAssets.

(** ** The asset table: file names *)

(** [asset.asset.name.split('.').pop() || 'jpg'] *)
Definition extension (name : string) : string :=
  match JS.pop (JS.split "." name) with
  | Some seg => JS.or_else seg "jpg"
  | None => "jpg"
  end.

Definition generateNewFileName
  (group : AdGroup.t) (asset : ProcessedAsset.t) (assetIndex : nat) : string :=
  if JS.truthy_opt (ProcessedAsset.custom_filename asset)
  then default EmptyString (ProcessedAsset.custom_filename asset)
  else
    let ext := extension (Asset.name (ProcessedAsset.asset asset)) in
    match AdGroup.group_type group with
    | carousel =>
        let adNum := JS.padStart (JS.String_ (AdGroup.ad_number group)) 4 "0" in
        let cardNum :=
          JS.padStart (JS.String_ (Z.of_nat assetIndex + 1)) 2 "0" in
        adNum +:+ "_CAR_Card" +:+ cardNum +:+ "." +:+ ext
    | _ =>
        let adNum := JS.padStart (JS.String_ (AdGroup.ad_number group)) 3 "0" in
        adNum +:+ "_"
          +:+ AssetType_token (Asset.asset_type (ProcessedAsset.asset asset))
          +:+ "_" +:+ Placement_token (ProcessedAsset.placement asset)
          +:+ "." +:+ ext
    end.

(** The body of the two counting loops of [duplicateFilenames]: the inner
    loop runs over [group.assets] with its index [i], the outer one over the
    groups. *)
Definition count_one (filename : string) (filenameCount : gmap string nat)
  : gmap string nat :=
  <[filename := (default 0 (filenameCount !! filename) + 1)%nat]> filenameCount.

Fixpoint count_assets (group : AdGroup.t) (i : nat)
  (rest : list ProcessedAsset.t) (filenameCount : gmap string nat)
  : gmap string nat :=
  match rest with
  | [] => filenameCount
  | asset :: rest' =>
      count_assets group (S i) rest'
        (count_one (generateNewFileName group asset i) filenameCount)
  end.

Fixpoint count_groups (groups : list AdGroup.t)
  (filenameCount : gmap string nat) : gmap string nat :=
  match groups with
  | [] => filenameCount
  | group :: groups' =>
      count_groups groups'
        (count_assets group 0 (AdGroup.assets group) filenameCount)
  end.

Definition duplicateFilenames (groups : list AdGroup.t) : gset string :=
  let filenameCount := count_groups groups ∅ in
  map_fold
    (fun filename count (duplicates : gset string) =>
       if (1 <? count)%nat then {[filename]} ∪ duplicates else duplicates)
    ∅ filenameCount.

(** ** The asset table: ad name preview *)

(** [parts.push(x)] and [if (cond) parts.push(x)] *)
Definition push (x : string) (parts : list string) : list string :=
  (parts ++ [x])%list.

Definition push_if (cond : bool) (x : string) (parts : list string)
  : list string :=
  if cond then push x parts else parts.

Definition generateAdName (group : AdGroup.t) : string :=
  let adNum := JS.padStart (JS.String_ (AdGroup.ad_number group)) 3 "0" in
  let parts := [adNum] in
  let parts := push_if (JS.truthy (AdGroup.campaign group))
                 (AdGroup.campaign group) parts in
  let parts := push_if (JS.truthy (AdGroup.product group))
                 (AdGroup.product group) parts in
  let parts := push (AdGroup.format_token group) parts in
  let parts := push_if (JS.truthy (AdGroup.angle group))
                 (AdGroup.angle group) parts in
  let parts := push_if (JS.truthy (AdGroup.hook group))
                 (AdGroup.hook group) parts in
  let parts := push_if (JS.truthy (AdGroup.creator group))
                 (AdGroup.creator group) parts in
  let parts := push_if (AdGroup.offer group) "Offer" parts in
  let parts := push_if (JS.truthy (AdGroup.date group))
                 (AdGroup.date group) parts in
  JS.replace_underscore_runs (JS.join "_" parts).

(** ** The review page: ad names pasted to the sheet *)

(** The function mapped over [sortedGroups] in [handlePasteToSheet]. *)
Definition sheetAdName (group : AdGroup.t) : string :=
  let adNum := JS.padStart (JS.String_ (AdGroup.ad_number group)) 3 "0" in
  let parts := [adNum] in
  let parts := push_if (JS.truthy (AdGroup.product group))
                 (AdGroup.product group) parts in
  let parts := push (AdGroup.format_token group) parts in
  let parts := push_if (JS.truthy (AdGroup.hook group))
                 (AdGroup.hook group) parts in
  let parts := push_if (JS.truthy (AdGroup.creator group))
                 (AdGroup.creator group) parts in
  let parts := push_if (AdGroup.offer group) "Colab" parts in
  let parts := push_if (JS.truthy (AdGroup.date group))
                 (AdGroup.date group) parts in
  JS.replace_underscore_runs (JS.join "_" parts).

(** What [handlePasteToSheet] hands to [api.pasteAdNamesToSheet]: nothing
    when there is no group to paste. *)
Definition handlePasteToSheet (sortedGroups : list AdGroup.t)
  : option (list string) :=
  match sortedGroups with
  | [] => None
  | _ => Some (sheetAdName <$> sortedGroups)
  end.

(** ** The review page: display order *)

Definition is_digit (c : ascii) : bool :=
  let n := nat_of_ascii c in ((48 <=? n) && (n <=? 57))%nat.

(** The text captured by [/^(\d+)/]: the longest prefix of digits. *)
Fixpoint leading_digits (s : string) : string :=
  match s with
  | String c rest =>
      if is_digit c then String c (leading_digits rest) else EmptyString
  | EmptyString => EmptyString
  end.

(** [parseInt(ds, 10)] on a string of digits, read left to right.  The
    value is exact; JavaScript's is exact too below 2^53. *)
Fixpoint parse_digits (acc : Z) (ds : string) : Z :=
  match ds with
  | String c rest =>
      parse_digits (10 * acc + (Z.of_nat (nat_of_ascii c) - 48)) rest
  | EmptyString => acc
  end.

Definition getFirstFilename (group : AdGroup.t) : string :=
  match AdGroup.assets group with
  | [] => EmptyString
  | first :: _ => Asset.name (ProcessedAsset.asset first)
  end.

(** [None] stands for [Infinity], the result when the name does not start
    with a digit.  The number is the exact value of the digits; [parseInt]
    returns the double nearest to it, which is that value below 2^53 only,
    so every property of the display order is stated for leading numbers
    below 2^53. *)
Definition extractNumber (filename : string) : option Z :=
  match leading_digits filename with
  | EmptyString => None
  | ds => Some (parse_digits 0 ds)
  end.

(** [arr.slice().sort(compare)]: a stable sort; [compare a b] positive
    puts [b] first.  Each element is inserted, from the right, into the
    sorted rest, before the first element it does not have to follow. *)
Fixpoint sort_insert {A} (compare : A -> A -> Z) (x : A) (sorted : list A)
  : list A :=
  match sorted with
  | [] => [x]
  | y :: rest =>
      if 0 <? compare x y then y :: sort_insert compare x rest
      else x :: sorted
  end.

Fixpoint sort {A} (compare : A -> A -> Z) (arr : list A) : list A :=
  match arr with
  | [] => []
  | x :: rest => sort_insert compare x (sort compare rest)
  end.

Section DisplayOrder.

(** [a.localeCompare(b)] depends on the collation of the host; only its
    sign matters to [sort]. *)
Variable localeCompare : string -> string -> Z.

(** The comparator handed to [sort]. *)
Definition compareGroups (a b : AdGroup.t) : Z :=
  let aName := getFirstFilename a in
  let bName := getFirstFilename b in
  match extractNumber aName, extractNumber bName with
  | Some aNum, Some bNum => aNum - bNum
  | _, _ => localeCompare aName bName
  end.

(** [analyzedGroups?.groups.slice().sort(...) || []] *)
Definition sortedGroups (analyzedGroups : option GroupedAssets.t)
  : list AdGroup.t :=
  match analyzedGroups with
  | Some data => sort compareGroups (GroupedAssets.groups data)
  | None => []
  end.

End DisplayOrder.

(** ** The group card: lowest confidence *)

Definition minConfidence (group : AdGroup.t) : Q :=
  let c := AdGroup.confidence group in
  Qmin (Qmin (Qmin (ConfidenceScores.group c) (ConfidenceScores.product c))
          (ConfidenceScores.angle c))
    (ConfidenceScores.offer c).

(** ** The review page: applying one value to all groups *)

(** The object [{ [field]: value }] handed to [api.updateGroup]: one of the
    fields its parameter type picks from [AdGroup], with a value of the
    field's type. *)
Inductive FieldUpdate :=
| set_product (value : string)
| set_angle (value : string)
| set_hook (value : string)
| set_creator (value : string)
| set_offer (value : bool)
| set_campaign (value : string)
| set_primary_text (value : string)
| set_headline (value : string)
| set_description (value : string)
| set_cta (value : string)
| set_url (value : string)
| set_comment_media_buyer (value : string)
| set_comment_client (value : string).

(** A group with its editable fields replaced; identity, type, assets, ad
    number, date, confidence and format token are kept. *)
Definition with_fields (g : AdGroup.t)
  (product angle hook creator : string) (offer : bool)
  (campaign primary_text headline description cta url
     comment_media_buyer comment_client : string) : AdGroup.t :=
  AdGroup.mk (AdGroup.id g) (AdGroup.group_type g) (AdGroup.assets g)
    (AdGroup.ad_number g) product angle hook creator offer campaign
    (AdGroup.date g) (AdGroup.confidence g) (AdGroup.format_token g)
    primary_text headline description cta url
    comment_media_buyer comment_client.

Definition apply_update (u : FieldUpdate) (g : AdGroup.t) : AdGroup.t :=
  let '(AdGroup.mk _ _ _ _ product angle hook creator offer campaign _ _ _
          primary_text headline description cta url cmb cc) := g in
  match u with
  | set_product v =>
      with_fields g v angle hook creator offer campaign primary_text
        headline description cta url cmb cc
  | set_angle v =>
      with_fields g product v hook creator offer campaign primary_text
        headline description cta url cmb cc
  | set_hook v =>
      with_fields g product angle v creator offer campaign primary_text
        headline description cta url cmb cc
  | set_creator v =>
      with_fields g product angle hook v offer campaign primary_text
        headline description cta url cmb cc
  | set_offer v =>
      with_fields g product angle hook creator v campaign primary_text
        headline description cta url cmb cc
  | set_campaign v =>
      with_fields g product angle hook creator offer v primary_text
        headline description cta url cmb cc
  | set_primary_text v =>
      with_fields g product angle hook creator offer campaign v
        headline description cta url cmb cc
  | set_headline v =>
      with_fields g product angle hook creator offer campaign primary_text
        v description cta url cmb cc
  | set_description v =>
      with_fields g product angle hook creator offer campaign primary_text
        headline v cta url cmb cc
  | set_cta v =>
      with_fields g product angle hook creator offer campaign primary_text
        headline description v url cmb cc
  | set_url v =>
      with_fields g product angle hook creator offer campaign primary_text
        headline description cta v cmb cc
  | set_comment_media_buyer v =>
      with_fields g product angle hook creator offer campaign primary_text
        headline description cta url v cc
  | set_comment_client v =>
      with_fields g product angle hook creator offer campaign primary_text
        headline description cta url cmb v
  end.

(** Whether the update left the group with the requested value. *)
Definition has_value (u : FieldUpdate) (g : AdGroup.t) : Prop :=
  match u with
  | set_product v => AdGroup.product g = v
  | set_angle v => AdGroup.angle g = v
  | set_hook v => AdGroup.hook g = v
  | set_creator v => AdGroup.creator g = v
  | set_offer v => AdGroup.offer g = v
  | set_campaign v => AdGroup.campaign g = v
  | set_primary_text v => AdGroup.primary_text g = v
  | set_headline v => AdGroup.headline g = v
  | set_description v => AdGroup.description g = v
  | set_cta v => AdGroup.cta g = v
  | set_url v => AdGroup.url g = v
  | set_comment_media_buyer v => AdGroup.comment_media_buyer g = v
  | set_comment_client v => AdGroup.comment_client g = v
  end.

(** A request either returns or throws ([fetchJson] throws on a response
    that is not ok); either way it may have changed the server's session,
    the snapshot the API serves.  The error names the ids that were not
    found. *)
Inductive ApiError := NotFound (ids : list string).

Inductive Outcome (A : Type) :=
| Returned (a : A)
| Thrown (e : ApiError).
Arguments Returned {A} a.
Arguments Thrown {A} e.

Definition Request (A : Type) : Type :=
  GroupedAssets.t -> Outcome A * GroupedAssets.t.

#[global] Instance req_ret : MRet Request :=
  fun A (a : A) session => (Returned a, session).

(** [const x = await r; k]: a thrown error skips the rest. *)
#[global] Instance req_bind : MBind Request :=
  fun A B (k : A -> Request B) (r : Request A) session =>
    match r session with
    | (Returned a, session') => k a session'
    | (Thrown e, session') => (Thrown e, session')
    end.

Definition has_id (groupId : string) (g : AdGroup.t) : bool :=
  String.eqb (AdGroup.id g) groupId.

(** Modelled from the spec: the server's handler of [PUT /groups/{id}],
    which [api.updateGroup] calls and whose code is absent.  The spec's
    [updateFields] applies the partial update to the group's editable
    fields and fails with [NotFound] if the group id is absent. *)
Definition api_updateGroup (groupId : string) (updates : FieldUpdate)
  : Request AdGroup.t :=
  fun session =>
    match List.find (has_id groupId) (GroupedAssets.groups session) with
    | None => (Thrown (NotFound [groupId]), session)
    | Some g =>
        (Returned (apply_update updates g),
         GroupedAssets.mk
           ((fun h => if has_id groupId h then apply_update updates h else h)
              <$> GroupedAssets.groups session)
           (GroupedAssets.ungrouped session))
    end.

(** [api.getGroups()]: the snapshot the server holds. *)
Definition api_getGroups : Request GroupedAssets.t :=
  fun session => (Returned session, session).

(** Modelled from the spec: the effect of an update on the session the
    server holds (the store's code is absent): the groups with the id
    [groupId] receive the update, everything else is kept. *)
Definition store_update (updates : FieldUpdate) (session : GroupedAssets.t)
  (groupId : string) : GroupedAssets.t :=
  GroupedAssets.mk
    ((fun h => if has_id groupId h then apply_update updates h else h)
       <$> GroupedAssets.groups session)
    (GroupedAssets.ungrouped session).

(** Modelled from the spec: the server's handler of [POST /bulk/apply],
    which [api.bulkApply] calls and whose code is absent.  The spec's
    [bulkApply] sets the field to the value for every group in
    [group_ids]; it fails with [NotFound] listing any id not present, and in
    that case applies to none of them.  The ids are looked up first; the
    groups are updated, one id after the other, only when none is
    missing. *)
Definition bulk_apply (group_ids : list string) (updates : FieldUpdate)
  : Request GroupedAssets.t :=
  fun session =>
    let present groupId :=
      existsb (has_id groupId) (GroupedAssets.groups session) in
    match List.filter (fun groupId => negb (present groupId)) group_ids with
    | [] =>
        let session' := fold_left (store_update updates) group_ids session in
        (Returned session', session')
    | missing => (Thrown (NotFound missing), session)
    end.

(** [api.bulkApply(groupIds, field, value)]: the three arguments are sent
    as they are, as [group_ids], [field] and [value] of the request body;
    the response is the new snapshot.  As for [api.updateGroup], field and
    value together are a [FieldUpdate]. *)
Definition api_bulkApply (groupIds : list string) (updates : FieldUpdate)
  : Request GroupedAssets.t :=
  bulk_apply groupIds updates.

(** The page's state that the handler reads and writes, and what it wrote
    with [console.error]: the message and the error caught. *)
Module Page.
Record t := mk {
  analyzedGroups : option GroupedAssets.t;
  console : list (string * ApiError)
}.
End Page.

(** [for (const group of groups) await api.updateGroup(group.id, ...)] *)
Fixpoint update_each (updates : FieldUpdate) (groups : list AdGroup.t)
  : Request unit :=
  match groups with
  | [] => mret tt
  | group :: rest =>
      api_updateGroup (AdGroup.id group) updates ;;
      update_each updates rest
  end.

Definition handleBulkApply (updates : FieldUpdate) (page : Page.t)
  (session : GroupedAssets.t) : Page.t * GroupedAssets.t :=
  match Page.analyzedGroups page with
  | None => (page, session)
  | Some analyzedGroups =>
      let try :=
        update_each updates (GroupedAssets.groups analyzedGroups) ;;
        newData ← api_getGroups;
        mret newData in
      match try session with
      | (Returned newData, session') =>
          (Page.mk (Some newData) (Page.console page), session')
      | (Thrown err, session') =>
          (Page.mk (Page.analyzedGroups page)
             (("Bulk apply failed:", err) :: Page.console page), session')
      end
  end.

(** ** The export row *)

(** A value of a CSV cell or JSON property: text or a number. *)
Inductive Cell :=
| text (s : string)
| number (q : Q).

(** [ExportRow] of the revision of the types that has the angle field,
    the one the asset table and the group card are written against. *)
Module ExportRow.
Record t := mk {
  file_id : string;
  old_name : string;
  new_name : string;
  group_id : string;
  group_type : string;
  placement_inferred : string;
  confidence_group : Q;
  confidence_product : Q;
  confidence_angle : Q;
  confidence_offer : Q
}.

(** The row as the object it is: its properties in declaration order. *)
Definition cells (r : t) : list (string * Cell) :=
  [ ("file_id", text (file_id r));
    ("old_name", text (old_name r));
    ("new_name", text (new_name r));
    ("group_id", text (group_id r));
    ("group_type", text (group_type r));
    ("placement_inferred", text (placement_inferred r));
    ("confidence_group", number (confidence_group r));
    ("confidence_product", number (confidence_product r));
    ("confidence_angle", number (confidence_angle r));
    ("confidence_offer", number (confidence_offer r)) ].

Definition columns (r : t) : list string := fst <$> cells r.
End ExportRow.



(** The later revision of [types/index.ts], without campaign and angle:
    its confidence scores and its export row, which has no column for an
    angle score. *)
Module Rev005.

Module ConfidenceScores.
Record t := mk {
  group : Q;
  product : Q;
  offer : Q
}.
End ConfidenceScores.

Module ExportRow.
Record t := mk {
  file_id : string;
  old_name : string;
  new_name : string;
  group_id : string;
  group_type : string;
  placement_inferred : string;
  confidence_group : Q;
  confidence_product : Q;
  confidence_offer : Q
}.

Definition cells (r : t) : list (string * Cell) :=
  [ ("file_id", text (file_id r));
    ("old_name", text (old_name r));
    ("new_name", text (new_name r));
    ("group_id", text (group_id r));
    ("group_type", text (group_type r));
    ("placement_inferred", text (placement_inferred r));
    ("confidence_group", number (confidence_group r));
    ("confidence_product", number (confidence_product r));
    ("confidence_offer", number (confidence_offer r)) ].

Definition columns (r : t) : list string := fst <$> cells r.
End ExportRow.

End Rev005.

(** The column list of the export contract as the specification words
    it, with the names the CSV uses. *)
Definition contract_columns : list string :=
  [ "file_id"; "old_name"; "new_name"; "group_id"; "group_type";
    "placement_inferred"; "confidence_group"; "confidence_product";
    "confidence_angle"; "confidence_offer" ].

(** ** Notions the specification uses *)

Fixpoint zeros (k : nat) : string :=
  match k with
  | O => EmptyString
  | S k' => String "0" (zeros k')
  end.

(** The decimal numeral of [n], filled on the left with zeros up to
    [width] characters. *)
Definition zero_padded (width : nat) (n : Z) : string :=
  zeros (width - String.length (JS.String_ n)) +:+ JS.String_ n.

(** The padded numeral of [n] has [width] characters, all of them digits,
    and reads back as [n]. *)
Definition padded_exact (width : nat) (n : nat) : bool :=
  let s := zero_padded width (Z.of_nat n) in
  (String.length s =? width)%nat
  && (parse_digits 0 s =? Z.of_nat n)
  && String.eqb (leading_digits s) s.

(** What follows the last dot of a name, if the name has a dot. *)
Fixpoint after_last_dot (s : string) : option string :=
  match s with
  | EmptyString => None
  | String c rest =>
      match after_last_dot rest with
      | Some suffix => Some suffix
      | None => if Ascii.eqb c "." then Some rest else None
      end
  end.

(** The extension as the specification words it: the suffix after the
    last dot, ["jpg"] when there is no dot. *)
Definition documented_extension (name : string) : string :=
  default "jpg" (after_last_dot name).

(** The file name produced at a place of a snapshot: the asset at index
    [ai] of the group at index [gi]. *)
Definition filename_at (groups : list AdGroup.t) (gi ai : nat)
  : option string :=
  g ← groups !! gi;
  a ← AdGroup.assets g !! ai;
  Some (generateNewFileName g a ai).

(** [f] is the file name of at least two distinct places. *)
Definition produced_twice (groups : list AdGroup.t) (f : string) : Prop :=
  exists gi ai gj aj,
    (gi, ai) <> (gj, aj)
    /\ filename_at groups gi ai = Some f
    /\ filename_at groups gj aj = Some f.

(** How often [f] occurs in a list of names. *)
Fixpoint occurrences (f : string) (names : list string) : nat :=
  match names with
  | [] => 0
  | x :: rest => ((if String.eqb x f then 1 else 0) + occurrences f rest)%nat
  end.

(** The names of a group's assets, in order. *)
Definition group_filenames (g : AdGroup.t) : list string :=
  imap (fun i a => generateNewFileName g a i) (AdGroup.assets g).

(** A group with another ad number, and a snapshot in which the group at
    index [gi] has been given the ad number [n]. *)
Definition with_ad_number (n : Z) (g : AdGroup.t) : AdGroup.t :=
  AdGroup.mk (AdGroup.id g) (AdGroup.group_type g) (AdGroup.assets g) n
    (AdGroup.product g) (AdGroup.angle g) (AdGroup.hook g)
    (AdGroup.creator g) (AdGroup.offer g) (AdGroup.campaign g)
    (AdGroup.date g) (AdGroup.confidence g) (AdGroup.format_token g)
    (AdGroup.primary_text g) (AdGroup.headline g) (AdGroup.description g)
    (AdGroup.cta g) (AdGroup.url g) (AdGroup.comment_media_buyer g)
    (AdGroup.comment_client g).

Definition renumbered (gi : nat) (n : Z) (groups : list AdGroup.t)
  : list AdGroup.t :=
  alter (with_ad_number n) gi groups.

(** The count a name has in the map; an absent name counts for 0. *)
Definition tally (m : gmap string nat) (f : string) : nat :=
  default 0%nat (m !! f).

(** An optional field of the ad name: skipped when empty. *)
Definition present (s : string) : list string :=
  match s with
  | EmptyString => []
  | _ => [s]
  end.

(** The marker of a flag: present when the flag is set. *)
Definition marker (flag : bool) (m : string) : list string :=
  if flag then [m] else [].

(** The fields of the ad-name preview, in the order the specification
    gives. *)
Definition ad_name_fields (g : AdGroup.t) : list string :=
  ([zero_padded 3 (AdGroup.ad_number g)]
     ++ present (AdGroup.campaign g)
     ++ present (AdGroup.product g)
     ++ [AdGroup.format_token g]
     ++ present (AdGroup.angle g)
     ++ present (AdGroup.hook g)
     ++ present (AdGroup.creator g)
     ++ marker (AdGroup.offer g) "Offer"
     ++ present (AdGroup.date g))%list.

(** The fields of the ad name pasted to the sheet. *)
Definition sheet_name_fields (g : AdGroup.t) : list string :=
  ([zero_padded 3 (AdGroup.ad_number g)]
     ++ present (AdGroup.product g)
     ++ [AdGroup.format_token g]
     ++ present (AdGroup.hook g)
     ++ present (AdGroup.creator g)
     ++ marker (AdGroup.offer g) "Colab"
     ++ present (AdGroup.date g))%list.

Definition starts_with_underscore (s : string) : bool :=
  match s with
  | String c _ => Ascii.eqb c "_"
  | EmptyString => false
  end.

(** Collapsing separator runs: an underscore that is followed by another
    one is dropped, so that one underscore is left of every run. *)
Fixpoint squeeze (s : string) : string :=
  match s with
  | EmptyString => EmptyString
  | String c rest =>
      if Ascii.eqb c "_" && starts_with_underscore rest
      then squeeze rest
      else String c (squeeze rest)
  end.

(** Whether two underscores stand next to each other somewhere. *)
Fixpoint has_double_underscore (s : string) : bool :=
  match s with
  | EmptyString => false
  | String c rest =>
      (Ascii.eqb c "_" && starts_with_underscore rest)
      || has_double_underscore rest
  end.

(** The preview agrees with the sheet's name on groups like this one. *)
Definition plain_group (g : AdGroup.t) : Prop :=
  AdGroup.campaign g = EmptyString
  /\ AdGroup.angle g = EmptyString
  /\ AdGroup.offer g = false.

(** [compare] does not ask for [b] before [a]. *)
Definition in_order {A} (compare : A -> A -> Z) (a b : A) : Prop :=
  compare a b <= 0.

(** The number a group's first file name starts with, when it starts
    with one that JavaScript represents exactly. *)
Definition leading_number (g : AdGroup.t) (n : Z) : Prop :=
  extractNumber (getFirstFilename g) = Some n /\ n < 2 ^ 53.

(** The order the claim asks of the displayed groups. *)
Definition ascending_by_minConfidence (shown : list AdGroup.t) : Prop :=
  forall i a b,
    shown !! i = Some a -> shown !! S i = Some b ->
    (minConfidence a <= minConfidence b)%Q.

(** The order the display has when the names are numbered. *)
Definition ascending_by_leading_number (shown : list AdGroup.t) : Prop :=
  forall i a b,
    shown !! i = Some a -> shown !! S i = Some b ->
    exists m n,
      extractNumber (getFirstFilename a) = Some m
      /\ extractNumber (getFirstFilename b) = Some n
      /\ m <= n.

(** Whether the session has a group with this id. *)
Definition known (session : GroupedAssets.t) (groupId : string) : bool :=
  existsb (has_id groupId) (GroupedAssets.groups session).

(** The session in which the groups with one of the ids have received
    the update, and nothing else has changed. *)
Definition applied_to (ids : list string) (u : FieldUpdate)
  (session : GroupedAssets.t) : GroupedAssets.t :=
  GroupedAssets.mk
    ((fun h => if existsb (String.eqb (AdGroup.id h)) ids
               then apply_update u h else h)
       <$> GroupedAssets.groups session)
    (GroupedAssets.ungrouped session).






(** The ids, in order, up to the first one the session does not know. *)
Fixpoint known_prefix (session : GroupedAssets.t) (ids : list string)
  : list string :=
  match ids with
  | [] => []
  | i :: rest =>
      if known session i then i :: known_prefix session rest else []
  end.

(** An asset under another file name, as after a rename. *)
Definition with_name (name : string) (a : ProcessedAsset.t)
  : ProcessedAsset.t :=
  let file := ProcessedAsset.asset a in
  ProcessedAsset.mk
    (Asset.mk (Asset.id file) name (Asset.path file) (Asset.asset_type file)
       (Asset.size_bytes file))
    (ProcessedAsset.metadata a) (ProcessedAsset.placement a)
    (ProcessedAsset.ocr_text a) (ProcessedAsset.fingerprint a)
    (ProcessedAsset.frame_paths a) (ProcessedAsset.thumbnail_url a)
    (ProcessedAsset.headline a) (ProcessedAsset.description a)
    (ProcessedAsset.custom_filename a).

(** No asset of the groups has a custom file name. *)
Definition no_custom_names (groups : list AdGroup.t) : Prop :=
  forall g a,
    In g groups -> In a (AdGroup.assets g) ->
    ProcessedAsset.custom_filename a = None.


(** ** More of the sources: the group card, the copy button, the editor,
    drag and drop *)

(** The file name preview of the group card. *)
Definition groupCardFilename (group : AdGroup.t) : string :=
  JS.padStart (JS.String_ (AdGroup.ad_number group)) 3 "0"
    +:+ "_" +:+ AdGroup.campaign group
    +:+ "_" +:+ AdGroup.product group
    +:+ "_" +:+ AdGroup.format_token group
    +:+ "_" +:+ AdGroup.angle group
    +:+ "_" +:+ (if AdGroup.offer group then "Yes" else "No")
    +:+ "_" +:+ AdGroup.date group.

(** The literals [0.7] and [0.4] are the doubles nearest to these
    decimals; a score is compared with their exact values. *)
Definition threshold_high : Q := 3152519739159347 # 4503599627370496.
Definition threshold_medium : Q := 3602879701896397 # 9007199254740992.

Definition getConfidenceClass (value : Q) : string :=
  if Qle_bool threshold_high value then "high"
  else if Qle_bool threshold_medium value then "medium"
  else "low".

(** The class of the badge of a group card. *)
Definition badgeClass (group : AdGroup.t) : string :=
  getConfidenceClass (minConfidence group).

(** The function the review page's copy button maps over the displayed
    groups, and the text it writes to the clipboard. *)
Definition copyAdName (group : AdGroup.t) : string :=
  let adNum := JS.padStart (JS.String_ (AdGroup.ad_number group)) 3 "0" in
  let parts := [adNum] in
  let parts := push_if (JS.truthy (AdGroup.campaign group))
                 (AdGroup.campaign group) parts in
  let parts := push_if (JS.truthy (AdGroup.product group))
                 (AdGroup.product group) parts in
  let parts := push (AdGroup.format_token group) parts in
  let parts := push_if (JS.truthy (AdGroup.angle group))
                 (AdGroup.angle group) parts in
  let parts := push_if (JS.truthy (AdGroup.hook group))
                 (AdGroup.hook group) parts in
  let parts := push_if (JS.truthy (AdGroup.creator group))
                 (AdGroup.creator group) parts in
  let parts := push_if (AdGroup.offer group) "Offer" parts in
  let parts := push_if (JS.truthy (AdGroup.date group))
                 (AdGroup.date group) parts in
  JS.replace_underscore_runs (JS.join "_" parts).

Definition newline : ascii := ascii_of_nat 10.

Definition copyAdNames (sortedGroups : list AdGroup.t) : string :=
  JS.join (String newline EmptyString) (copyAdName <$> sortedGroups).

(** [sortedGroups.reduce((sum, g) => sum + g.assets.length, 0)] *)
Definition totalAssets (sortedGroups : list AdGroup.t) : nat :=
  fold_left (fun sum g => (sum + length (AdGroup.assets g))%nat)
    sortedGroups 0%nat.

(** The result of a drag: where the asset came from, where it was dropped
    (nowhere when dropped outside every group), and the asset's id. *)
Module DraggableLocation.
Record t := mk {
  droppableId : string;
  index : nat
}.
End DraggableLocation.

Module DropResult.
Record t := mk {
  source : DraggableLocation.t;
  destination : option DraggableLocation.t;
  draggableId : string
}.
End DropResult.

(** The call [handleDragEnd] makes on the callbacks it was given. *)
Inductive DragCall :=
| call_onReorderAsset (groupId assetId : string) (newIndex : nat)
| call_onRegroupAsset (assetId : string) (targetGroupId : string)
    (destinationIndex : nat).

(** [onRegroupAsset] and [onReorderAsset] are optional properties of the
    table: the flags tell whether they were passed. *)
Definition handleDragEnd (onRegroupAsset onReorderAsset : bool)
  (result : DropResult.t) : option DragCall :=
  let source := DropResult.source result in
  match DropResult.destination result with
  | None => None
  | Some destination =>
      let sourceGroupId := DraggableLocation.droppableId source in
      let destGroupId := DraggableLocation.droppableId destination in
      let assetId := DropResult.draggableId result in
      if String.eqb sourceGroupId destGroupId
         && (DraggableLocation.index source
             =? DraggableLocation.index destination)%nat
      then None
      else if String.eqb sourceGroupId destGroupId
      then if onReorderAsset
           then Some (call_onReorderAsset sourceGroupId assetId
                        (DraggableLocation.index destination))
           else None
      else if onRegroupAsset
           then Some (call_onRegroupAsset assetId destGroupId
                        (DraggableLocation.index destination))
           else None
  end.

(** The state of the inline file name editor. *)
Module Editor.
Record t := mk {
  editingAssetId : option string;
  editValue : string
}.
End Editor.

Section FilenameEditor.

(** [s.trim()]: what counts as white space is the host's business; the
    editor only tests the result and passes it on. *)
Variable trim : string -> string.

(** The call on [onUpdateAssetFilename], if any, and the editor's state
    afterwards. *)
Definition handleFilenameSave (onUpdateAssetFilename : bool)
  (editor : Editor.t) (groupId assetId : string)
  : option (string * string * string) * Editor.t :=
  let call :=
    if onUpdateAssetFilename && JS.truthy (trim (Editor.editValue editor))
    then Some (groupId, assetId, trim (Editor.editValue editor))
    else None in
  (call, Editor.mk None EmptyString).

End FilenameEditor.

(** ** Notions for the further properties *)

(** Whether a character occurs in a text. *)
Fixpoint contains (c : ascii) (s : string) : bool :=
  match s with
  | EmptyString => false
  | String x rest => Ascii.eqb x c || contains c rest
  end.

(** The texts of a group that go into its names, all free of [c]. *)
Definition fields_free_of (c : ascii) (g : AdGroup.t) : Prop :=
  contains c (AdGroup.campaign g) = false
  /\ contains c (AdGroup.product g) = false
  /\ contains c (AdGroup.format_token g) = false
  /\ contains c (AdGroup.angle g) = false
  /\ contains c (AdGroup.hook g) = false
  /\ contains c (AdGroup.creator g) = false
  /\ contains c (AdGroup.date g) = false.

(** Whether the group's first file name starts with the number [k]. *)
Definition has_leading_number (k : Z) (g : AdGroup.t) : bool :=
  match extractNumber (getFirstFilename g) with
  | Some n => n =? k
  | None => false
  end.


(** ** Notions for the names and the order *)

(** The place of a character in a text, counted from 0, and the value of
    a decimal digit: its place among the ten digits. *)
Fixpoint place_in (c : ascii) (s : string) : option Z :=
  match s with
  | EmptyString => None
  | String d rest =>
      if Ascii.eqb c d then Some 0 else Z.succ <$> place_in c rest
  end.

Definition digit_value (c : ascii) : option Z := place_in c "0123456789".

(** The number a string of decimal digits denotes; nothing for the empty
    string and for a string that holds another character. *)
Fixpoint numeral_value_from (acc : Z) (s : string) : option Z :=
  match s with
  | EmptyString => Some acc
  | String c rest =>
      match digit_value c with
      | Some d => numeral_value_from (10 * acc + d) rest
      | None => None
      end
  end.

Definition numeral_value (s : string) : option Z :=
  match s with
  | EmptyString => None
  | _ => numeral_value_from 0 s
  end.

Definition starts_with_zero (s : string) : bool :=
  match s with
  | String c _ => Ascii.eqb c "0"
  | EmptyString => false
  end.

(** [s] is the number [n] zero-padded to [width] digits: decimal digits
    only, denoting [n], at least [width] of them, and without a zero in
    front when there are more. *)
Definition zero_padded_numeral (width : nat) (n : Z) (s : string) : Prop :=
  numeral_value s = Some n
  /\ (width <= String.length s)%nat
  /\ ((width < String.length s)%nat -> starts_with_zero s = false).

(** The file name the specification gives an asset without a custom
    name, with the extension as the specification words it. *)
Definition documented_filename
  (g : AdGroup.t) (a : ProcessedAsset.t) (i : nat) : string :=
  let ext := documented_extension (Asset.name (ProcessedAsset.asset a)) in
  match AdGroup.group_type g with
  | carousel =>
      zero_padded 4 (AdGroup.ad_number g) +:+ "_CAR_Card"
        +:+ zero_padded 2 (Z.of_nat i + 1) +:+ "." +:+ ext
  | standard | single =>
      zero_padded 3 (AdGroup.ad_number g) +:+ "_"
        +:+ AssetType_token (Asset.asset_type (ProcessedAsset.asset a))
        +:+ "_" +:+ Placement_token (ProcessedAsset.placement a)
        +:+ "." +:+ ext
  end.


(** A group with other confidence scores, and a snapshot in which every
    group has been given the scores [rescore] chooses for it. *)
Definition with_confidence (scores : ConfidenceScores.t) (g : AdGroup.t)
  : AdGroup.t :=
  AdGroup.mk (AdGroup.id g) (AdGroup.group_type g) (AdGroup.assets g)
    (AdGroup.ad_number g) (AdGroup.product g) (AdGroup.angle g)
    (AdGroup.hook g) (AdGroup.creator g) (AdGroup.offer g)
    (AdGroup.campaign g) (AdGroup.date g) scores (AdGroup.format_token g)
    (AdGroup.primary_text g) (AdGroup.headline g) (AdGroup.description g)
    (AdGroup.cta g) (AdGroup.url g) (AdGroup.comment_media_buyer g)
    (AdGroup.comment_client g).

Definition rescored (rescore : AdGroup.t -> ConfidenceScores.t)
  (g : AdGroup.t) : AdGroup.t :=
  with_confidence (rescore g) g.


(** ** Sample data *)

Definition sample_asset (name : string) (kind : AssetType)
  (placement : Placement) (custom : option string) : ProcessedAsset.t :=
  ProcessedAsset.mk (Asset.mk name name name kind None)
    (AssetMetadata.mk 1080 1920 None (9 # 16)) placement
    EmptyString EmptyString [] None EmptyString EmptyString custom.

Definition sample_scores (q : Q) : ConfidenceScores.t :=
  ConfidenceScores.mk q q q q.

Definition sample_group (id : string) (kind : GroupType) (ad_number : Z)
  (assets : list ProcessedAsset.t) : AdGroup.t :=
  AdGroup.mk id kind assets ad_number EmptyString EmptyString EmptyString
    EmptyString false EmptyString EmptyString (sample_scores 1) "IMG"
    EmptyString EmptyString EmptyString EmptyString EmptyString
    EmptyString EmptyString.

(** Two standard pairs that were given the same ad number. *)
Definition colliding_groups : list AdGroup.t :=
  [ sample_group "g1" standard 1
      [ sample_asset "a_story.jpg" IMG story None;
        sample_asset "a_feed.jpg" IMG feed None ];
    sample_group "g2" standard 1
      [ sample_asset "b_story.jpg" IMG story None;
        sample_asset "b_feed.jpg" IMG feed None ] ].

(** A group with every field of the ad name filled in. *)
Definition full_group : AdGroup.t :=
  AdGroup.mk "g1" standard [sample_asset "a_story.jpg" IMG story None] 12
    "Widget" "Price" "Hook" "Ana" true "JanAds" "2026.01.05"
    (sample_scores 1) "IMG" EmptyString EmptyString EmptyString
    EmptyString EmptyString EmptyString EmptyString.

(** A group without campaign, angle and offer. *)
Definition plain_sample : AdGroup.t :=
  AdGroup.mk "g2" single [sample_asset "b.mp4" VID feed None] 3
    "Widget" EmptyString "Hook" "Ana" false EmptyString "2026.01.05"
    (sample_scores 1) "VID" EmptyString EmptyString EmptyString
    EmptyString EmptyString EmptyString EmptyString.

(** A locale comparison for the samples: by code points. *)
Definition sample_localeCompare (a b : string) : Z :=
  match String.compare a b with
  | Lt => -1
  | Eq => 0
  | Gt => 1
  end.

(** Two groups whose file order and confidence order disagree: the first
    by file name is the one inferred with more confidence. *)
Definition sure_group : AdGroup.t :=
  AdGroup.mk "g1" single [sample_asset "1_hero.jpg" IMG feed None] 1
    EmptyString EmptyString EmptyString EmptyString false EmptyString
    EmptyString (sample_scores (9 # 10)) "IMG" EmptyString EmptyString
    EmptyString EmptyString EmptyString EmptyString EmptyString.

Definition unsure_group : AdGroup.t :=
  AdGroup.mk "g2" single [sample_asset "2_hero.jpg" IMG feed None] 2
    EmptyString EmptyString EmptyString EmptyString false EmptyString
    EmptyString (sample_scores (2 # 10)) "IMG" EmptyString EmptyString
    EmptyString EmptyString EmptyString EmptyString EmptyString.

Definition triage_snapshot : GroupedAssets.t :=
  GroupedAssets.mk [unsure_group; sure_group] [].

(** A session that holds one group, a page that shows it, and a page
    that still shows a second group the session no longer has. *)
Definition session_g1 : GroupedAssets.t :=
  GroupedAssets.mk
    [sample_group "g1" single 1 [sample_asset "a.jpg" IMG feed None]] [].

Definition fresh_page : Page.t := Page.mk (Some session_g1) [].

Definition stale_page : Page.t :=
  Page.mk
    (Some (GroupedAssets.mk
             [ sample_group "g1" single 1 [sample_asset "a.jpg" IMG feed None];
               sample_group "g9" single 2 [sample_asset "b.jpg" IMG feed None] ]
             []))
    [].




(** A standard group whose two assets are both story images. *)
Definition twin_groups : list AdGroup.t :=
  [ sample_group "g1" standard 1
      [ sample_asset "a.jpg" IMG story None;
        sample_asset "b.jpg" IMG story None ];
    sample_group "g2" single 2 [sample_asset "c.jpg" IMG feed None] ].

(** Two groups in which the reviewer typed the same name for two assets. *)
Definition retyped_groups : list AdGroup.t :=
  [ sample_group "g1" single 1
      [sample_asset "a.jpg" IMG story (Some "hero.jpg")];
    sample_group "g2" single 2
      [sample_asset "b.png" IMG feed (Some "hero.jpg")] ].

(** Three groups, two of which have first file names with the number 1. *)
Definition tied_snapshot : GroupedAssets.t :=
  GroupedAssets.mk
    [ sample_group "g2" single 2 [sample_asset "2_c.jpg" IMG feed None];
      sample_group "g1a" single 1 [sample_asset "1_a.jpg" IMG feed None];
      sample_group "g1b" single 3 [sample_asset "01_b.jpg" IMG feed None] ]
    [].

(** A stand-in for [trim]: leading spaces are dropped. *)
Fixpoint sample_trim (s : string) : string :=
  match s with
  | String c rest => if Ascii.eqb c " " then sample_trim rest else s
  | EmptyString => EmptyString
  end.

(** A card dragged from the first place of one group to the third place
    of another. *)
Definition sample_drop : DropResult.t :=
  DropResult.mk (DraggableLocation.mk "g1" 0)
    (Some (DraggableLocation.mk "g2" 2)) "a.jpg".

(** A group with few fields, one of which holds a run of underscores. *)
Definition sparse_group : AdGroup.t :=
  AdGroup.mk "g3" single [sample_asset "c.mp4" VID story None] 1234
    "Big__Sale" EmptyString EmptyString EmptyString false EmptyString
    EmptyString (sample_scores 1) "VID" EmptyString EmptyString EmptyString
    EmptyString EmptyString EmptyString EmptyString.

(** Scores that turn the order of confidence round: certain groups get
    low scores and the others high ones. *)
Definition sample_rescore (g : AdGroup.t) : ConfidenceScores.t :=
  if Qle_bool (1 # 2) (minConfidence g)
  then sample_scores (1 # 10) else sample_scores 1.


(** * Properties *)

(** ** String primitives *)

Lemma filler_zero (cur : string) (k : nat) :
  cur = "0" \/ cur = EmptyString -> JS.filler "0" cur k = zeros k.
Proof.
  revert cur. induction k as [|k IH]; intros cur Hcur; [reflexivity|].
  destruct Hcur as [-> | ->]; simpl; f_equal; apply IH; auto.
Qed.

Lemma padStart_zero (s : string) (width : nat) :
  JS.padStart s width "0" = zeros (width - String.length s) +:+ s.
Proof.
  unfold JS.padStart. destruct (Nat.leb_spec width (String.length s)) as [Hle|Hlt].
  - replace (width - String.length s)%nat with 0%nat by lia. reflexivity.
  - simpl. rewrite filler_zero by auto. reflexivity.
Qed.

Lemma padStart_String_zero_padded (width : nat) (n : Z) :
  JS.padStart (JS.String_ n) width "0" = zero_padded width n.
Proof. apply padStart_zero. Qed.

Lemma string_app_length (s1 s2 : string) :
  String.length (s1 +:+ s2) = (String.length s1 + String.length s2)%nat.
Proof. induction s1 as [|c s1 IH]; simpl; [reflexivity | now rewrite IH]. Qed.

Lemma zeros_length (k : nat) : String.length (zeros k) = k.
Proof. induction k as [|k IH]; simpl; [reflexivity | now rewrite IH]. Qed.

(** A padded numeral is never shorter than the width asked for. *)
Lemma zero_padded_length_ge (width : nat) (n : Z) :
  (width <= String.length (zero_padded width n))%nat.
Proof.
  unfold zero_padded. rewrite string_app_length, zeros_length. lia.
Qed.

(** Below 10^4 the padded numeral has exactly the width asked for (for the
    widths the namer uses), is made of digits and reads back as the
    number. *)
Lemma zero_padded_exact (width : nat) (n : Z) :
  (width = 2 \/ width = 3 \/ width = 4)%nat ->
  0 <= n < 10 ^ Z.of_nat width ->
  String.length (zero_padded width n) = width
  /\ parse_digits 0 (zero_padded width n) = n
  /\ leading_digits (zero_padded width n) = zero_padded width n.
Proof.
  intros Hw Hn.
  assert (Hall : forallb (padded_exact width) (seq 0 (Z.to_nat (10 ^ Z.of_nat width))) = true).
  { destruct Hw as [-> | [-> | ->]]; vm_compute; reflexivity. }
  rewrite forallb_forall in Hall.
  specialize (Hall (Z.to_nat n)).
  assert (Hin : In (Z.to_nat n) (seq 0 (Z.to_nat (10 ^ Z.of_nat width)))).
  { apply in_seq. lia. }
  apply Hall in Hin. unfold padded_exact in Hin.
  rewrite Z2Nat.id in Hin by lia.
  apply andb_prop in Hin as [Hin H3]. apply andb_prop in Hin as [H1 H2].
  apply Nat.eqb_eq in H1. apply Z.eqb_eq in H2. apply String.eqb_eq in H3.
  auto.
Qed.

Lemma pop_last (arr : list string) (d : string) :
  arr <> [] -> JS.pop arr = Some (List.last arr d).
Proof.
  unfold JS.pop. induction arr as [|x [|y arr] IH]; intros Hne.
  - contradiction.
  - reflexivity.
  - change (List.last (Some <$> y :: arr) None = Some (List.last (y :: arr) d)).
    apply IH. discriminate.
Qed.

Lemma split_nonempty (sep : ascii) (s : string) : JS.split sep s <> [].
Proof.
  destruct s as [|c s]; simpl; [discriminate|].
  destruct (Ascii.eqb c sep); [discriminate|].
  destruct (JS.split sep s); discriminate.
Qed.

(** A name without a dot is its own single segment; with a dot, the last
    segment is what follows the last dot. *)
Lemma split_dot_last (s : string) :
  match after_last_dot s with
  | None => JS.split "." s = [s]
  | Some suffix =>
      (2 <= length (JS.split "." s))%nat
      /\ List.last (JS.split "." s) EmptyString = suffix
  end.
Proof.
  induction s as [|c s IH]; [reflexivity|].
  simpl. destruct (after_last_dot s) as [suffix|].
  - destruct IH as [Hlen Hlast]. destruct (Ascii.eqb c ".").
    + split; [simpl; lia|].
      destruct (JS.split "." s) as [|seg segs]; [simpl in Hlen; lia | exact Hlast].
    + destruct (JS.split "." s) as [|seg [|seg' segs]]; simpl in Hlen; try lia.
      split; [simpl; lia | exact Hlast].
  - rewrite IH. destruct (Ascii.eqb c "."); [|reflexivity].
    split; [simpl; lia | reflexivity].
Qed.

(** The extension the namer uses, in terms of the last dot. *)
Lemma extension_by_last_dot (name : string) :
  extension name = JS.or_else (default name (after_last_dot name)) "jpg".
Proof.
  unfold extension.
  rewrite (pop_last _ EmptyString) by apply split_nonempty.
  pose proof (split_dot_last name) as H.
  destruct (after_last_dot name) as [suffix|].
  - destruct H as [_ ->]. reflexivity.
  - rewrite H. reflexivity.
Qed.

Lemma extension_with_suffix (name suffix : string) :
  after_last_dot name = Some suffix -> suffix <> EmptyString ->
  extension name = documented_extension name.
Proof.
  intros H Hne. rewrite extension_by_last_dot. unfold documented_extension.
  rewrite H. destruct suffix; [contradiction | reflexivity].
Qed.

Lemma extension_dotless (name : string) :
  after_last_dot name = None -> name <> EmptyString -> extension name = name.
Proof.
  intros H Hne. rewrite extension_by_last_dot, H.
  destruct name; [contradiction | reflexivity].
Qed.

(** ** Numerals *)

Lemma parse_digits_uint_acc (d : Decimal.uint) :
  forall acc : positive,
    parse_digits (Z.pos acc) (NilEmpty.string_of_uint d)
    = Z.pos (Pos.of_uint_acc d acc).
Proof.
  induction d as [|d IH|d IH|d IH|d IH|d IH|d IH|d IH|d IH|d IH|d IH];
    intros acc; [reflexivity| ..];
    cbn [NilEmpty.string_of_uint parse_digits Pos.of_uint_acc];
    rewrite <- IH; f_equal;
    match goal with
    | |- context [nat_of_ascii ?c] =>
        let k := eval vm_compute in (Z.of_nat (nat_of_ascii c)) in
        change (Z.of_nat (nat_of_ascii c)) with k
    end; lia.
Qed.

Lemma parse_digits_uint (d : Decimal.uint) :
  parse_digits 0 (NilEmpty.string_of_uint d) = Z.of_N (Pos.of_uint d).
Proof.
  induction d as [|d IH|d IH|d IH|d IH|d IH|d IH|d IH|d IH|d IH|d IH];
    [reflexivity | exact IH | ..];
    cbn [NilEmpty.string_of_uint parse_digits Pos.of_uint Z.of_N];
    rewrite <- parse_digits_uint_acc; reflexivity.
Qed.

Lemma digits_of_uint (d : Decimal.uint) :
  leading_digits (NilEmpty.string_of_uint d) = NilEmpty.string_of_uint d.
Proof.
  induction d as [|d IH|d IH|d IH|d IH|d IH|d IH|d IH|d IH|d IH|d IH];
    [reflexivity| ..];
    cbn [NilEmpty.string_of_uint leading_digits];
    (replace (is_digit _) with true by reflexivity); rewrite IH; reflexivity.
Qed.

Lemma String_of_pos (p : positive) :
  JS.String_ (Z.pos p) = NilEmpty.string_of_uint (Pos.to_uint p).
Proof.
  unfold JS.String_. simpl.
  pose proof (DecimalPos.Unsigned.to_uint_nonnil p) as Hnil.
  destruct (Pos.to_uint p); [contradiction | reflexivity..].
Qed.

(** The numeral of a number that is not negative is a non-empty string of
    digits that reads back as the number. *)
Lemma String_digits (n : Z) :
  0 <= n ->
  leading_digits (JS.String_ n) = JS.String_ n
  /\ parse_digits 0 (JS.String_ n) = n
  /\ JS.String_ n <> EmptyString.
Proof.
  intros Hn. destruct n as [|p|p]; [repeat split; discriminate | | lia].
  rewrite String_of_pos. repeat split.
  - apply digits_of_uint.
  - rewrite parse_digits_uint, DecimalPos.Unsigned.of_to. reflexivity.
  - pose proof (DecimalPos.Unsigned.to_uint_nonnil p) as Hnil.
    destruct (Pos.to_uint p); [contradiction | discriminate..].
Qed.

Lemma zeros_digits (k : nat) (s : string) :
  leading_digits (zeros k +:+ s) = zeros k +:+ leading_digits s
  /\ parse_digits 0 (zeros k +:+ s) = parse_digits 0 s.
Proof.
  induction k as [|k [IHd IHp]]; [split; reflexivity|].
  simpl. rewrite IHd. split; [reflexivity | exact IHp].
Qed.

Lemma zero_padded_digits (width : nat) (n : Z) :
  0 <= n ->
  leading_digits (zero_padded width n) = zero_padded width n
  /\ parse_digits 0 (zero_padded width n) = n
  /\ zero_padded width n <> EmptyString.
Proof.
  intros Hn. destruct (String_digits n Hn) as (Hd & Hp & Hne).
  unfold zero_padded.
  destruct (zeros_digits (width - String.length (JS.String_ n)) (JS.String_ n))
    as [Hzd Hzp].
  rewrite Hzd, Hzp, Hd. repeat split; [exact Hp|].
  destruct (zeros _); [exact Hne | discriminate].
Qed.

(** The digits a text starts with, when it is a numeral followed by a
    character that is not a digit. *)
Lemma leading_digits_app (d : string) (c : ascii) (rest : string) :
  leading_digits d = d -> is_digit c = false ->
  leading_digits (d +:+ String c rest) = d.
Proof.
  intros Hd Hc. induction d as [|x d IH]; simpl in *.
  - rewrite Hc. reflexivity.
  - destruct (is_digit x); [|discriminate].
    injection Hd as Hd. rewrite (IH Hd). reflexivity.
Qed.

Lemma extractNumber_numeral (width : nat) (n : Z) (c : ascii) (rest : string) :
  0 <= n -> is_digit c = false ->
  extractNumber (zero_padded width n +:+ String c rest) = Some n.
Proof.
  intros Hn Hc. destruct (zero_padded_digits width n Hn) as (Hd & Hp & Hne).
  unfold extractNumber. rewrite (leading_digits_app _ c rest Hd Hc).
  destruct (zero_padded width n); [contradiction|]. rewrite Hp. reflexivity.
Qed.

Lemma digit_value_is_digit (c : ascii) :
  is_digit c = true ->
  digit_value c = Some (Z.of_nat (nat_of_ascii c) - 48).
Proof.
  destruct c as [[] [] [] [] [] [] [] []]; intros Hc;
    try discriminate Hc; reflexivity.
Qed.

Lemma numeral_value_from_digits (s : string) :
  forall acc,
    leading_digits s = s ->
    numeral_value_from acc s = Some (parse_digits acc s).
Proof.
  induction s as [|c s IH]; intros acc Hs; [reflexivity|].
  simpl in Hs. destruct (is_digit c) eqn:Hc; [|discriminate Hs].
  injection Hs as Hs. cbn [numeral_value_from parse_digits].
  rewrite (digit_value_is_digit c Hc). apply IH. exact Hs.
Qed.

Lemma String_pos_no_leading_zero (p : positive) :
  starts_with_zero (JS.String_ (Z.pos p)) = false.
Proof.
  rewrite String_of_pos.
  assert (Hnorm : Decimal.unorm (Pos.to_uint p) = Pos.to_uint p).
  { rewrite <- DecimalPos.Unsigned.to_of, DecimalPos.Unsigned.of_to.
    reflexivity. }
  pose proof (DecimalPos.Unsigned.to_uint_nonzero p) as Hnonzero.
  pose proof (DecimalFacts.nzhead_nonzero (Pos.to_uint p)) as Hhead.
  unfold Decimal.unorm in Hnorm.
  destruct (Decimal.nzhead (Pos.to_uint p)) as [|d|d|d|d|d|d|d|d|d|d] eqn:Hnz;
    rewrite <- Hnorm; try reflexivity.
  - exfalso. apply Hnonzero. symmetry. exact Hnorm.
  - exfalso. exact (Hhead d eq_refl).
Qed.

(** The padded numeral of a number that is not negative is that number
    zero-padded to the width: digits that denote it, at least [width] of
    them, and no zero in front of a longer numeral. *)
Lemma zero_padded_is_numeral (width : nat) (n : Z) :
  (1 <= width)%nat -> 0 <= n ->
  zero_padded_numeral width n (zero_padded width n).
Proof.
  intros Hwidth Hn.
  destruct (zero_padded_digits width n Hn) as (Hd & Hp & Hne).
  split; [|split].
  - unfold numeral_value.
    destruct (zero_padded width n) as [|c s] eqn:Hs; [contradiction|].
    rewrite numeral_value_from_digits by exact Hd. rewrite Hp. reflexivity.
  - apply zero_padded_length_ge.
  - unfold zero_padded. rewrite string_app_length, zeros_length.
    intros Hlong.
    replace (width - String.length (JS.String_ n))%nat with 0%nat by lia.
    simpl. destruct n as [|p|p]; [simpl in Hlong; lia | | lia].
    apply String_pos_no_leading_zero.
Qed.

Lemma join_concat (sep : string) (parts : list string) :
  JS.join sep parts = String.concat sep parts.
Proof.
  induction parts as [|p [|q parts] IH]; [reflexivity | reflexivity|].
  change (p +:+ sep +:+ JS.join sep (q :: parts)
          = p +:+ sep +:+ String.concat sep (q :: parts)).
  rewrite IH. reflexivity.
Qed.

(** ** File names *)

(** C1.  The namer at source names without a dot, for a card of a
    carousel and for the asset of a single group: the generated name has
    the whole source name after the dot, where the claim, with the
    extension as the specification words it, has [jpg].  The code's
    fallback to [jpg] is taken only when nothing follows the last dot. *)
Theorem generateNewFileName_without_extension :
  let card := sample_asset "card" IMG unknown None in
  let deck := sample_group "g1" carousel 7 [card] in
  let clip := sample_asset "clip" VID feed None in
  let solo := sample_group "g2" single 12 [clip] in
  documented_filename deck card 0 = "0007_CAR_Card01.jpg"
  /\ generateNewFileName deck card 0 = "0007_CAR_Card01.card"
  /\ documented_filename solo clip 0 = "012_VID_feed.jpg"
  /\ generateNewFileName solo clip 0 = "012_VID_feed.clip"
  /\ generateNewFileName solo (sample_asset "clip." VID feed None) 0
     = "012_VID_feed.jpg".
Proof. repeat split. Qed.




(** C5.  The namer at a name without a dot: the whole name is used as the
    extension, where the claim has ["jpg"]. *)
Theorem extension_of_dotless_name :
  let a := sample_asset "photo" IMG story None in
  let g := sample_group "g1" standard 1 [a] in
  after_last_dot "photo" = None
  /\ documented_extension "photo" = "jpg"
  /\ extension "photo" = "photo"
  /\ generateNewFileName g a 0 = "001_IMG_story.photo".
Proof. repeat split. Qed.

(** ** Duplicate file names *)

Lemma tally_count_one (m : gmap string nat) (x f : string) :
  tally (count_one x m) f
  = ((if String.eqb x f then 1 else 0) + tally m f)%nat.
Proof.
  unfold tally, count_one. destruct (String.eqb_spec x f) as [->|Hne].
  - rewrite lookup_insert_eq. simpl. lia.
  - rewrite lookup_insert_ne by done. reflexivity.
Qed.

Lemma tally_count_assets (g : AdGroup.t) (f : string)
  (rest : list ProcessedAsset.t) :
  forall (i : nat) (m : gmap string nat),
    tally (count_assets g i rest m) f
    = (tally m f
       + occurrences f
           (imap (fun k a => generateNewFileName g a (i + k)) rest))%nat.
Proof.
  induction rest as [|a rest IH]; intros i m.
  - simpl. lia.
  - rewrite imap_cons. cbn [count_assets occurrences].
    rewrite IH, tally_count_one, Nat.add_0_r.
    assert (Hshift :
      imap ((fun k a0 => generateNewFileName g a0 (i + k)) ∘ S) rest
      = imap (fun k a0 => generateNewFileName g a0 (S i + k)) rest).
    { apply imap_ext. intros k a0 _. simpl. f_equal. lia. }
    rewrite Hshift. lia.
Qed.

Lemma occurrences_app (f : string) (l1 l2 : list string) :
  occurrences f (l1 ++ l2) = (occurrences f l1 + occurrences f l2)%nat.
Proof.
  induction l1 as [|x l1 IH]; simpl; [reflexivity|]. rewrite IH. lia.
Qed.

Lemma tally_count_groups (f : string) (groups : list AdGroup.t) :
  forall m : gmap string nat,
    tally (count_groups groups m) f
    = (tally m f + occurrences f (groups ≫= group_filenames))%nat.
Proof.
  induction groups as [|g groups IH]; intros m.
  - simpl. lia.
  - rewrite bind_cons, occurrences_app. cbn [count_groups].
    rewrite IH, tally_count_assets. unfold group_filenames at 2.
    simpl. lia.
Qed.

(** The second loop keeps the names counted more than once. *)
Lemma duplicates_of_counts (m : gmap string nat) (f : string) :
  f ∈ map_fold
        (fun filename count (duplicates : gset string) =>
           if (1 <? count)%nat then {[filename]} ∪ duplicates else duplicates)
        (∅ : gset string) m
  <-> (1 < tally m f)%nat.
Proof.
  apply (map_fold_weak_ind (fun (r : gset string) m =>
           f ∈ r <-> (1 < tally m f)%nat)).
  - unfold tally. rewrite lookup_empty, elem_of_empty. simpl. lia.
  - intros i x m' r Hfresh Hrec. unfold tally in *.
    destruct (decide (i = f)) as [->|Hne].
    + rewrite lookup_insert_eq. rewrite Hfresh in Hrec. simpl in *.
      destruct (Nat.ltb_spec 1 x) as [Hmany|Hfew].
      * rewrite elem_of_union, elem_of_singleton. tauto.
      * rewrite Hrec. lia.
    + rewrite lookup_insert_ne by done.
      destruct (Nat.ltb_spec 1 x) as [Hmany|Hfew]; [|exact Hrec].
      rewrite elem_of_union, elem_of_singleton, Hrec.
      split; [intros [Heq|Hin]; [congruence | exact Hin] | tauto].
Qed.

Lemma duplicateFilenames_occurrences (groups : list AdGroup.t) (f : string) :
  f ∈ duplicateFilenames groups
  <-> (2 <= occurrences f (groups ≫= group_filenames))%nat.
Proof.
  unfold duplicateFilenames. rewrite duplicates_of_counts, tally_count_groups.
  unfold tally. rewrite lookup_empty. simpl. lia.
Qed.

Lemma occurrences_once (f : string) (names : list string) :
  (1 <= occurrences f names)%nat <-> exists i, names !! i = Some f.
Proof.
  induction names as [|x names IH]; simpl.
  - split; [lia | intros [i Hi]; discriminate].
  - destruct (String.eqb_spec x f) as [->|Hne].
    + split; [intros _; exists 0%nat; reflexivity | lia].
    + simpl. rewrite IH. split.
      * intros [i Hi]. exists (S i). exact Hi.
      * intros [[|i] Hi]; simpl in Hi; [congruence | eauto].
Qed.

Lemma occurrences_twice (f : string) (names : list string) :
  (2 <= occurrences f names)%nat
  <-> exists i j, i <> j /\ names !! i = Some f /\ names !! j = Some f.
Proof.
  induction names as [|x names IH]; simpl.
  - split; [lia | intros (i & j & _ & Hi & _); discriminate].
  - split.
    + intros Hocc. destruct (String.eqb_spec x f) as [->|Hne].
      * assert (Hone : (1 <= occurrences f names)%nat) by lia.
        apply occurrences_once in Hone as [j Hj].
        exists 0%nat, (S j). repeat split; [lia | exact Hj].
      * simpl in Hocc. apply IH in Hocc as (i & j & Hij & Hi & Hj).
        exists (S i), (S j). repeat split; [lia | exact Hi | exact Hj].
    + intros (i & j & Hij & Hi & Hj).
      destruct i as [|i], j as [|j]; simpl in Hi, Hj.
      * lia.
      * injection Hi as ->. rewrite String.eqb_refl.
        assert ((1 <= occurrences f names)%nat)
          by (apply occurrences_once; eauto). lia.
      * injection Hj as ->. rewrite String.eqb_refl.
        assert ((1 <= occurrences f names)%nat)
          by (apply occurrences_once; eauto). lia.
      * assert ((2 <= occurrences f names)%nat).
        { apply IH. exists i, j. repeat split; [lia | exact Hi | exact Hj]. }
        lia.
Qed.

Lemma filename_at_group (groups : list AdGroup.t) (gi ai : nat) :
  filename_at groups gi ai = (g ← groups !! gi; group_filenames g !! ai).
Proof.
  unfold filename_at, group_filenames.
  destruct (groups !! gi) as [g|]; [|reflexivity]. simpl.
  rewrite list_lookup_imap. destruct (AdGroup.assets g !! ai); reflexivity.
Qed.

Lemma produced_once_occurrences (f : string) (groups : list AdGroup.t) :
  (1 <= occurrences f (groups ≫= group_filenames))%nat
  <-> exists gi ai, filename_at groups gi ai = Some f.
Proof.
  induction groups as [|g groups IH].
  - simpl. split; [lia | intros (gi & ai & H); discriminate].
  - rewrite bind_cons, occurrences_app. split.
    + intros Hocc.
      destruct (Nat.le_gt_cases 1 (occurrences f (group_filenames g)))
        as [Hhere|Hnot].
      * apply occurrences_once in Hhere as [ai Hai].
        exists 0%nat, ai. rewrite filename_at_group. exact Hai.
      * assert (Hrest : (1 <= occurrences f (groups ≫= group_filenames))%nat)
          by lia.
        apply IH in Hrest as (gi & ai & H).
        exists (S gi), ai. rewrite filename_at_group in *. exact H.
    + intros (gi & ai & H). rewrite filename_at_group in H.
      destruct gi as [|gi]; simpl in H.
      * assert ((1 <= occurrences f (group_filenames g))%nat)
          by (apply occurrences_once; eauto). lia.
      * assert ((1 <= occurrences f (groups ≫= group_filenames))%nat).
        { apply IH. exists gi, ai. rewrite filename_at_group. exact H. }
        lia.
Qed.

Lemma produced_twice_occurrences (f : string) (groups : list AdGroup.t) :
  (2 <= occurrences f (groups ≫= group_filenames))%nat
  <-> produced_twice groups f.
Proof.
  unfold produced_twice. induction groups as [|g groups IH].
  - simpl. split; [lia | intros (gi & ai & gj & aj & _ & H & _); discriminate].
  - rewrite bind_cons, occurrences_app. split.
    + intros Hocc.
      destruct (Nat.le_gt_cases 2 (occurrences f (group_filenames g)))
        as [Htwo|Hlt].
      { apply occurrences_twice in Htwo as (ai & aj & Hne & Hi & Hj).
        exists 0%nat, ai, 0%nat, aj. rewrite !filename_at_group.
        repeat split; [congruence | exact Hi | exact Hj]. }
      destruct (Nat.le_gt_cases 1 (occurrences f (group_filenames g)))
        as [Hone|Hzero].
      { apply occurrences_once in Hone as [ai Hi].
        assert (Hrest : (1 <= occurrences f (groups ≫= group_filenames))%nat)
          by lia.
        apply produced_once_occurrences in Hrest as (gj & aj & Hj).
        exists 0%nat, ai, (S gj), aj. rewrite !filename_at_group in *.
        repeat split; [congruence | exact Hi | exact Hj]. }
      assert (Hrest : (2 <= occurrences f (groups ≫= group_filenames))%nat)
        by lia.
      apply IH in Hrest as (gi & ai & gj & aj & Hne & Hi & Hj).
      exists (S gi), ai, (S gj), aj. rewrite !filename_at_group in *.
      repeat split; [congruence | exact Hi | exact Hj].
    + intros (gi & ai & gj & aj & Hne & Hi & Hj).
      rewrite filename_at_group in Hi, Hj.
      destruct gi as [|gi], gj as [|gj]; simpl in Hi, Hj.
      * assert ((2 <= occurrences f (group_filenames g))%nat).
        { apply occurrences_twice. exists ai, aj.
          repeat split; [congruence | exact Hi | exact Hj]. }
        lia.
      * assert ((1 <= occurrences f (group_filenames g))%nat)
          by (apply occurrences_once; eauto).
        assert ((1 <= occurrences f (groups ≫= group_filenames))%nat).
        { apply produced_once_occurrences. exists gj, aj.
          rewrite filename_at_group. exact Hj. }
        lia.
      * assert ((1 <= occurrences f (group_filenames g))%nat)
          by (apply occurrences_once; eauto).
        assert ((1 <= occurrences f (groups ≫= group_filenames))%nat).
        { apply produced_once_occurrences. exists gi, ai.
          rewrite filename_at_group. exact Hi. }
        lia.
      * assert ((2 <= occurrences f (groups ≫= group_filenames))%nat).
        { apply IH. exists gi, ai, gj, aj. rewrite !filename_at_group.
          repeat split; [congruence | exact Hi | exact Hj]. }
        lia.
Qed.

Lemma filename_at_renumbered_other
  (groups : list AdGroup.t) (gi gk ak : nat) (n : Z) :
  gk <> gi ->
  filename_at (renumbered gi n groups) gk ak = filename_at groups gk ak.
Proof.
  intros Hne. unfold filename_at, renumbered.
  rewrite list_lookup_alter_ne by congruence. reflexivity.
Qed.

(** C3.  The duplicate set is exactly the set of names produced at two or
    more distinct (group, asset index) places of the snapshot.  In
    particular, when the names of two groups collide the common name is in
    the set; and when these were the only two places with that name, giving
    either group an ad number under which it no longer produces the name
    takes the name out of the set. *)
Theorem duplicateFilenames_exact (groups : list AdGroup.t) :
  (forall f, f ∈ duplicateFilenames groups <-> produced_twice groups f)
  /\ (forall gi ai gj aj f,
        gi <> gj ->
        filename_at groups gi ai = Some f ->
        filename_at groups gj aj = Some f ->
        f ∈ duplicateFilenames groups
        /\ forall n,
            (forall gk ak, filename_at groups gk ak = Some f ->
                           (gk, ak) = (gi, ai) \/ (gk, ak) = (gj, aj)) ->
            (forall ak, filename_at (renumbered gi n groups) gi ak <> Some f) ->
            f ∉ duplicateFilenames (renumbered gi n groups)).
Proof.
  assert (Hexact : forall gs f,
             f ∈ duplicateFilenames gs <-> produced_twice gs f).
  { intros gs f.
    rewrite duplicateFilenames_occurrences.
    apply produced_twice_occurrences. }
  split; [apply Hexact|].
  intros gi ai gj aj f Hne Hi Hj. split.
  - apply Hexact. exists gi, ai, gj, aj.
    repeat split; [congruence | exact Hi | exact Hj].
  - intros n Honly Hgone Hdup.
    apply Hexact in Hdup as (gk & ak & gl & al & Hdiff & Hk & Hl).
    assert (Hplace : forall gm am,
               filename_at (renumbered gi n groups) gm am = Some f ->
               (gm, am) = (gj, aj)).
    { intros gm am Hm. destruct (decide (gm = gi)) as [->|Hother].
      - exfalso. exact (Hgone am Hm).
      - rewrite filename_at_renumbered_other in Hm by exact Hother.
        destruct (Honly gm am Hm) as [Heq|Heq]; [|exact Heq].
        congruence. }
    apply Hplace in Hk, Hl. congruence.
Qed.

Lemma duplicateFilenames_exact_witness :
  "001_IMG_story.jpg" ∈ duplicateFilenames colliding_groups
  /\ "001_IMG_story.jpg" ∉ duplicateFilenames (renumbered 0 2 colliding_groups).
Proof.
  destruct (duplicateFilenames_exact colliding_groups) as [_ Hpair].
  destruct (Hpair 0%nat 0%nat 1%nat 0%nat "001_IMG_story.jpg")
    as [Hin Hout]; [lia | reflexivity | reflexivity |].
  split; [exact Hin|]. apply Hout.
  - intros [|[|gk]] [|[|ak]] H; vm_compute in H; try discriminate H;
      [left; reflexivity | right; reflexivity].
  - intros [|[|ak]] H; vm_compute in H; discriminate H.
Defined.

(** ** Ad names *)

Lemma collapse_squeeze (s : string) :
  JS.collapse_from false s = squeeze s
  /\ String "_" (JS.collapse_from true s) = squeeze (String "_" s).
Proof.
  induction s as [|c s [IHa IHb]]; [split; reflexivity|].
  cbn [JS.collapse_from]. destruct (Ascii.eqb_spec c "_") as [->|Hne].
  - split; [exact IHb|]. rewrite IHb. reflexivity.
  - assert (Hc : Ascii.eqb c "_" = false) by (apply Ascii.eqb_neq; exact Hne).
    rewrite IHa. cbn [squeeze starts_with_underscore]. rewrite Hc.
    split; reflexivity.
Qed.

Lemma replace_underscore_runs_squeeze (s : string) :
  JS.replace_underscore_runs s = squeeze s.
Proof. apply collapse_squeeze. Qed.

Lemma squeeze_starts (s : string) :
  starts_with_underscore (squeeze s) = starts_with_underscore s.
Proof.
  induction s as [|c s IH]; [reflexivity|]. cbn [squeeze].
  destruct (Ascii.eqb c "_") eqn:Hc, (starts_with_underscore s) eqn:Hs; simpl;
    rewrite ?Hc, ?IH; try reflexivity.
Qed.

(** After the replacement no two underscores are adjacent. *)
Lemma replace_underscore_runs_no_double (s : string) :
  has_double_underscore (JS.replace_underscore_runs s) = false.
Proof.
  rewrite replace_underscore_runs_squeeze.
  induction s as [|c s IH]; [reflexivity|]. cbn [squeeze].
  destruct (Ascii.eqb c "_" && starts_with_underscore s) eqn:Hskip;
    [exact IH|].
  cbn [has_double_underscore]. rewrite squeeze_starts, Hskip, IH. reflexivity.
Qed.

Lemma push_if_present (s : string) (parts : list string) :
  push_if (JS.truthy s) s parts = (parts ++ present s)%list.
Proof. destruct s; simpl; [symmetry; apply app_nil_r | reflexivity]. Qed.

Lemma push_if_marker (flag : bool) (m : string) (parts : list string) :
  push_if flag m parts = (parts ++ marker flag m)%list.
Proof. destruct flag; simpl; [reflexivity | symmetry; apply app_nil_r]. Qed.

Lemma generateAdName_squeeze (g : AdGroup.t) :
  generateAdName g = squeeze (JS.join "_" (ad_name_fields g)).
Proof.
  unfold generateAdName, ad_name_fields.
  rewrite replace_underscore_runs_squeeze, padStart_String_zero_padded.
  rewrite !push_if_present, push_if_marker. unfold push.
  rewrite <- !app_assoc. reflexivity.
Qed.

(** C6.  The ad-name preview is the underscore-join of the ad number
    zero-padded to 3 digits, campaign, product, format token, angle, hook,
    creator, the marker [Offer] when the offer flag is set, and date, in
    this order, with every empty optional field skipped, and with every run
    of underscores left in the joined string collapsed to one.  The first
    field is the ad number zero-padded to 3 digits whenever the ad number
    is not negative. *)
Theorem generateAdName_fields (g : AdGroup.t) :
  generateAdName g = squeeze (String.concat "_" (ad_name_fields g))
  /\ has_double_underscore (generateAdName g) = false
  /\ (0 <= AdGroup.ad_number g ->
      zero_padded_numeral 3 (AdGroup.ad_number g)
        (zero_padded 3 (AdGroup.ad_number g))).
Proof.
  split; [|split].
  - rewrite <- join_concat. apply generateAdName_squeeze.
  - unfold generateAdName. apply replace_underscore_runs_no_double.
  - apply zero_padded_is_numeral. lia.
Qed.

Lemma generateAdName_fields_witness :
  generateAdName full_group
  = "012_JanAds_Widget_IMG_Price_Hook_Ana_Offer_2026.01.05"
  /\ generateAdName sparse_group = "1234_Big_Sale_VID"
  /\ numeral_value "012" = Some 12
  /\ numeral_value "1234" = Some 1234.
Proof.
  destruct (generateAdName_fields full_group) as (Hfull & _ & Hnumber).
  destruct (generateAdName_fields sparse_group) as (Hsparse & _ & Hlong).
  split; [rewrite Hfull; reflexivity|].
  split; [rewrite Hsparse; reflexivity|].
  split.
  - apply Hnumber. simpl. lia.
  - apply Hlong. simpl. lia.
Defined.

Lemma sheetAdName_fields (g : AdGroup.t) :
  sheetAdName g = squeeze (JS.join "_" (sheet_name_fields g)).
Proof.
  unfold sheetAdName, sheet_name_fields.
  rewrite replace_underscore_runs_squeeze, padStart_String_zero_padded.
  rewrite !push_if_present, push_if_marker. unfold push.
  rewrite <- !app_assoc. reflexivity.
Qed.

Lemma sheetAdName_plain (g : AdGroup.t) :
  plain_group g -> sheetAdName g = generateAdName g.
Proof.
  intros (Hcampaign & Hangle & Hoffer).
  rewrite sheetAdName_fields, generateAdName_squeeze.
  unfold sheet_name_fields, ad_name_fields.
  rewrite Hcampaign, Hangle, Hoffer. reflexivity.
Qed.

(** C10, as amended.  The names pasted to the sheet are, for each displayed
    group in order, the underscore-join (runs collapsed) of ad number,
    product, format token, hook, creator, the marker [Colab] when the offer
    flag is set, and date; they are the previews of the asset table when no
    group has a campaign or an angle or the offer flag set. *)
Theorem handlePasteToSheet_names
  (sortedGroups : list AdGroup.t) (adNames : list string) :
  handlePasteToSheet sortedGroups = Some adNames ->
  adNames = (fun g => squeeze (JS.join "_" (sheet_name_fields g)))
              <$> sortedGroups
  /\ (Forall plain_group sortedGroups ->
      adNames = generateAdName <$> sortedGroups).
Proof.
  intros Hpaste.
  assert (Hnames : adNames = sheetAdName <$> sortedGroups).
  { destruct sortedGroups as [|g rest]; [discriminate Hpaste|].
    injection Hpaste as <-. reflexivity. }
  subst adNames. split.
  - apply list_fmap_ext. intros _ g _. apply sheetAdName_fields.
  - intros Hplain. apply Forall_fmap_ext_1.
    eapply Forall_impl; [exact Hplain|]. apply sheetAdName_plain.
Qed.

Lemma handlePasteToSheet_names_witness :
  handlePasteToSheet [plain_sample] = Some ["003_Widget_VID_Hook_Ana_2026.01.05"]
  /\ ["003_Widget_VID_Hook_Ana_2026.01.05"] = generateAdName <$> [plain_sample].
Proof.
  split; [reflexivity|].
  apply (handlePasteToSheet_names [plain_sample]
           ["003_Widget_VID_Hook_Ana_2026.01.05"] eq_refl).
  repeat constructor.
Defined.

(** C10 as stated fails: for a group with campaign, angle and offer the
    pasted name leaves campaign and angle out and marks the offer with
    [Colab], where the preview has [Offer]. *)
Lemma handlePasteToSheet_differs_from_preview :
  generateAdName full_group
    = "012_JanAds_Widget_IMG_Price_Hook_Ana_Offer_2026.01.05"
  /\ handlePasteToSheet [full_group]
    = Some ["012_Widget_IMG_Hook_Ana_Colab_2026.01.05"]
  /\ handlePasteToSheet [full_group] <> Some [generateAdName full_group].
Proof. repeat split. discriminate. Qed.

(** ** Display order *)

Section SortFacts.

Context {A : Type} (compare : A -> A -> Z).

Lemma sort_insert_perm (x : A) (l : list A) :
  Permutation (sort_insert compare x l) (x :: l).
Proof.
  induction l as [|y l IH]; simpl; [reflexivity|].
  destruct (0 <? compare x y); [|reflexivity].
  rewrite IH. apply perm_swap.
Qed.

Lemma sort_perm (l : list A) : Permutation (sort compare l) l.
Proof.
  induction l as [|x l IH]; simpl; [reflexivity|].
  rewrite sort_insert_perm. apply perm_skip, IH.
Qed.

Lemma sort_insert_sorted (x : A) (l : list A) :
  (forall y, In y l -> 0 < compare x y -> compare y x <= 0) ->
  Sorted (in_order compare) l ->
  Sorted (in_order compare) (sort_insert compare x l).
Proof.
  intros Hback Hsorted. induction Hsorted as [|y l Hl IH Hhd]; simpl.
  - repeat constructor.
  - destruct (Z.ltb_spec 0 (compare x y)) as [Hafter|Hbefore].
    + constructor.
      * apply IH. intros z Hz. apply Hback. right. exact Hz.
      * destruct Hhd as [|z l Hyz]; simpl.
        -- constructor. apply Hback; [left; reflexivity | exact Hafter].
        -- destruct (0 <? compare x z); constructor;
             [exact Hyz | apply Hback; [left; reflexivity | exact Hafter]].
    + constructor; [constructor; assumption|].
      constructor. exact Hbefore.
Qed.

Lemma sort_sorted (l : list A) :
  (forall x y, In x l -> In y l -> 0 < compare x y -> compare y x <= 0) ->
  Sorted (in_order compare) (sort compare l).
Proof.
  induction l as [|x l IH]; intros Hback; simpl; [constructor|].
  apply sort_insert_sorted.
  - intros y Hy. apply Hback; [left; reflexivity|].
    right. apply (Permutation_in _ (sort_perm l)). exact Hy.
  - apply IH. intros y z Hy Hz. apply Hback; right; assumption.
Qed.

Lemma Sorted_adjacent (R : A -> A -> Prop) (l : list A) (i : nat) (a b : A) :
  Sorted R l -> l !! i = Some a -> l !! S i = Some b -> R a b.
Proof.
  intros Hsorted. revert i. induction Hsorted as [|y l Hl IH Hhd]; intros i Ha Hb.
  - discriminate.
  - destruct i as [|i]; simpl in Ha, Hb.
    + injection Ha as ->. destruct Hhd as [|z l Hyz]; [discriminate|].
      simpl in Hb. injection Hb as ->. exact Hyz.
    + eapply IH; eassumption.
Qed.

End SortFacts.

Lemma sort_insert_fmap {A} (compare : A -> A -> Z) (f : A -> A)
  (x : A) (l : list A) :
  (forall a b, compare (f a) (f b) = compare a b) ->
  sort_insert compare (f x) (f <$> l) = f <$> sort_insert compare x l.
Proof.
  intros Hsame. induction l as [|y l IH]; [reflexivity|].
  rewrite fmap_cons. cbn [sort_insert]. rewrite Hsame.
  destruct (0 <? compare x y); rewrite !fmap_cons; [rewrite IH|]; reflexivity.
Qed.

Lemma sort_fmap {A} (compare : A -> A -> Z) (f : A -> A) (l : list A) :
  (forall a b, compare (f a) (f b) = compare a b) ->
  sort compare (f <$> l) = f <$> sort compare l.
Proof.
  intros Hsame. induction l as [|x l IH]; [reflexivity|].
  rewrite fmap_cons. cbn [sort]. rewrite IH.
  apply sort_insert_fmap. exact Hsame.
Qed.

Lemma compareGroups_rescored (localeCompare : string -> string -> Z)
  (rescore : AdGroup.t -> ConfidenceScores.t) (a b : AdGroup.t) :
  compareGroups localeCompare (rescored rescore a) (rescored rescore b)
  = compareGroups localeCompare a b.
Proof. reflexivity. Qed.

(** C7, as amended.  The review page orders the displayed groups by the
    file name of their first asset, not by confidence: the displayed list
    is a rearrangement of the snapshot's groups; it is the same whatever
    the confidence scores of the groups are; and when every first file name
    starts with a number below 2^53, the numbers of adjacent displayed
    groups ascend. *)
Theorem sortedGroups_by_leading_number
  (localeCompare : string -> string -> Z) (data : GroupedAssets.t) :
  Permutation (sortedGroups localeCompare (Some data))
    (GroupedAssets.groups data)
  /\ (forall rescore : AdGroup.t -> ConfidenceScores.t,
        sortedGroups localeCompare
          (Some (GroupedAssets.mk
                   (rescored rescore <$> GroupedAssets.groups data)
                   (GroupedAssets.ungrouped data)))
        = rescored rescore <$> sortedGroups localeCompare (Some data))
  /\ ((forall g, In g (GroupedAssets.groups data) ->
                 exists n, leading_number g n) ->
      ascending_by_leading_number (sortedGroups localeCompare (Some data))).
Proof.
  simpl. split; [apply sort_perm|]. split.
  - intros rescore. apply sort_fmap. apply compareGroups_rescored.
  - intros Hnumbered.
    assert (Hshown : forall g,
               In g (sort (compareGroups localeCompare)
                       (GroupedAssets.groups data)) ->
               exists n, leading_number g n).
    { intros g Hg. apply Hnumbered.
      eapply Permutation_in; [apply sort_perm | exact Hg]. }
    intros i a b Ha Hb.
    destruct (Hshown a) as (m & Hm & _);
      [apply list_elem_of_In, list_elem_of_lookup; eauto|].
    destruct (Hshown b) as (n & Hn & _);
      [apply list_elem_of_In, list_elem_of_lookup; eauto|].
    exists m, n. repeat split; [exact Hm | exact Hn|].
    assert (Hord : in_order (compareGroups localeCompare) a b).
    { eapply Sorted_adjacent; [|exact Ha|exact Hb].
      apply sort_sorted. intros x y Hx Hy.
      destruct (Hnumbered x Hx) as (p & Hp & _).
      destruct (Hnumbered y Hy) as (q & Hq & _).
      unfold compareGroups. rewrite Hp, Hq. lia. }
    unfold in_order, compareGroups in Hord. rewrite Hm, Hn in Hord. lia.
Qed.

Lemma sortedGroups_by_leading_number_witness :
  ascending_by_leading_number
    (sortedGroups sample_localeCompare (Some triage_snapshot))
  /\ AdGroup.id
       <$> sortedGroups sample_localeCompare
             (Some (GroupedAssets.mk
                      (rescored sample_rescore
                         <$> GroupedAssets.groups triage_snapshot)
                      []))
     = ["g1"; "g2"].
Proof.
  destruct (sortedGroups_by_leading_number sample_localeCompare
              triage_snapshot) as (_ & Hsame & Hascending).
  split.
  - apply Hascending. intros g [<- | [<- | []]].
    + exists 2. split; [reflexivity | lia].
    + exists 1. split; [reflexivity | lia].
  - change (GroupedAssets.mk
              (rescored sample_rescore <$> GroupedAssets.groups triage_snapshot)
              [])
      with (GroupedAssets.mk
              (rescored sample_rescore <$> GroupedAssets.groups triage_snapshot)
              (GroupedAssets.ungrouped triage_snapshot)).
    rewrite (Hsame sample_rescore). reflexivity.
Defined.

(** C7 as stated fails: a snapshot that lists the less certain group first
    is displayed with the more certain group first, because its file name
    has the smaller number. *)
Lemma sortedGroups_not_by_confidence :
  GroupedAssets.groups triage_snapshot = [unsure_group; sure_group]
  /\ sortedGroups sample_localeCompare (Some triage_snapshot)
     = [sure_group; unsure_group]
  /\ (minConfidence unsure_group < minConfidence sure_group)%Q
  /\ ~ ascending_by_minConfidence
         (sortedGroups sample_localeCompare (Some triage_snapshot)).
Proof.
  repeat split.
  intros Hasc.
  specialize (Hasc 0%nat sure_group unsure_group eq_refl eq_refl).
  vm_compute in Hasc. apply Hasc. reflexivity.
Qed.

(** ** Applying a value to all groups *)

Lemma apply_update_id (u : FieldUpdate) (g : AdGroup.t) :
  AdGroup.id (apply_update u g) = AdGroup.id g.
Proof. destruct g, u; reflexivity. Qed.

Lemma apply_update_twice (u : FieldUpdate) (g : AdGroup.t) :
  apply_update u (apply_update u g) = apply_update u g.
Proof. destruct g, u; reflexivity. Qed.

Lemma apply_update_has_value (u : FieldUpdate) (g : AdGroup.t) :
  has_value u (apply_update u g).
Proof. destruct g, u; reflexivity. Qed.

Lemma find_existsb {A} (f : A -> bool) (l : list A) :
  List.find f l = None <-> existsb f l = false.
Proof.
  induction l as [|x l IH]; simpl; [tauto|].
  destruct (f x); simpl; [split; discriminate | exact IH].
Qed.

(** One request: it throws and changes nothing when the id is unknown,
    and updates the groups of that id otherwise. *)
Lemma api_updateGroup_unknown (groupId : string) (u : FieldUpdate)
  (session : GroupedAssets.t) :
  known session groupId = false ->
  api_updateGroup groupId u session = (Thrown (NotFound [groupId]), session).
Proof.
  intros Hunknown. unfold api_updateGroup.
  apply find_existsb in Hunknown. rewrite Hunknown. reflexivity.
Qed.

Lemma api_updateGroup_known (groupId : string) (u : FieldUpdate)
  (session : GroupedAssets.t) :
  known session groupId = true ->
  exists g,
    api_updateGroup groupId u session
    = (Returned g, applied_to [groupId] u session).
Proof.
  intros Hknown. unfold api_updateGroup.
  destruct (List.find (has_id groupId) (GroupedAssets.groups session))
    as [g|] eqn:Hfind.
  - exists (apply_update u g). unfold applied_to. f_equal. f_equal.
    apply list_fmap_ext. intros _ h _. unfold has_id. simpl.
    rewrite orb_false_r. reflexivity.
  - apply find_existsb in Hfind. unfold known in Hknown. congruence.
Qed.

Lemma known_applied_to (ids : list string) (u : FieldUpdate)
  (session : GroupedAssets.t) (groupId : string) :
  known (applied_to ids u session) groupId = known session groupId.
Proof.
  unfold known, applied_to. simpl.
  induction (GroupedAssets.groups session) as [|h l IH]; [reflexivity|].
  rewrite fmap_cons. simpl. rewrite IH. f_equal.
  unfold has_id. destruct (existsb _ ids); [|reflexivity].
  rewrite apply_update_id. reflexivity.
Qed.

Lemma all_known_applied_to (ids : list string) (u : FieldUpdate)
  (session : GroupedAssets.t) (wanted : list string) :
  forallb (known (applied_to ids u session)) wanted
  = forallb (known session) wanted.
Proof.
  induction wanted as [|i wanted IH]; simpl; [reflexivity|].
  rewrite known_applied_to, IH. reflexivity.
Qed.

Lemma applied_to_nil (u : FieldUpdate) (session : GroupedAssets.t) :
  applied_to [] u session = session.
Proof.
  destruct session as [groups ungrouped]. unfold applied_to. simpl.
  f_equal. induction groups as [|h l IH]; [reflexivity|].
  rewrite fmap_cons, IH. reflexivity.
Qed.

Lemma applied_to_cons (groupId : string) (ids : list string)
  (u : FieldUpdate) (session : GroupedAssets.t) :
  applied_to ids u (applied_to [groupId] u session)
  = applied_to (groupId :: ids) u session.
Proof.
  unfold applied_to. simpl. f_equal. rewrite <- list_fmap_compose.
  apply list_fmap_ext. intros _ h _. simpl. rewrite orb_false_r.
  destruct (String.eqb (AdGroup.id h) groupId); simpl.
  - rewrite apply_update_id, apply_update_twice.
    destruct (existsb _ ids); reflexivity.
  - reflexivity.
Qed.

Lemma update_each_all_known (u : FieldUpdate) (groups : list AdGroup.t) :
  forall session,
    forallb (known session) (AdGroup.id <$> groups) = true ->
    update_each u groups session
    = (Returned tt, applied_to (AdGroup.id <$> groups) u session).
Proof.
  induction groups as [|g groups IH]; intros session Hall.
  - simpl. rewrite applied_to_nil. reflexivity.
  - rewrite fmap_cons in Hall. simpl in Hall.
    apply andb_prop in Hall as [Hg Hrest].
    destruct (api_updateGroup_known (AdGroup.id g) u session Hg) as [g' Hreq].
    cbn [update_each]. unfold mbind, req_bind. rewrite Hreq.
    rewrite IH.
    + rewrite fmap_cons, applied_to_cons. reflexivity.
    + rewrite all_known_applied_to. exact Hrest.
Qed.

Lemma update_each_some_unknown (u : FieldUpdate) (groups : list AdGroup.t) :
  forall session,
    forallb (known session) (AdGroup.id <$> groups) = false ->
    exists groupId session',
      update_each u groups session = (Thrown (NotFound [groupId]), session')
      /\ In groupId (AdGroup.id <$> groups)
      /\ known session groupId = false.
Proof.
  induction groups as [|g groups IH]; intros session Hsome.
  - discriminate.
  - rewrite fmap_cons in Hsome. simpl in Hsome.
    cbn [update_each]. unfold mbind, req_bind.
    destruct (known session (AdGroup.id g)) eqn:Hg.
    + destruct (api_updateGroup_known (AdGroup.id g) u session Hg) as [g' Hreq].
      rewrite Hreq.
      destruct (IH (applied_to [AdGroup.id g] u session))
        as (groupId & s' & Hrun & Hin & Hunknown).
      { rewrite all_known_applied_to. exact Hsome. }
      exists groupId, s'. rewrite fmap_cons. split; [exact Hrun|].
      split; [right; exact Hin|].
      rewrite known_applied_to in Hunknown. exact Hunknown.
    + rewrite api_updateGroup_unknown by exact Hg.
      exists (AdGroup.id g), session. rewrite fmap_cons.
      split; [reflexivity|]. split; [left; reflexivity | exact Hg].
Qed.

Lemma known_prefix_applied_to (ids : list string) (u : FieldUpdate)
  (session : GroupedAssets.t) (wanted : list string) :
  known_prefix (applied_to ids u session) wanted = known_prefix session wanted.
Proof.
  induction wanted as [|i wanted IH]; simpl; [reflexivity|].
  rewrite known_applied_to, IH. reflexivity.
Qed.

(** The loop of requests, whatever its outcome, leaves the session with
    the update applied to the groups named before the first unknown id. *)
Lemma update_each_session (u : FieldUpdate) (groups : list AdGroup.t) :
  forall session,
    snd (update_each u groups session)
    = applied_to (known_prefix session (AdGroup.id <$> groups)) u session.
Proof.
  induction groups as [|g groups IH]; intros session.
  - simpl. rewrite applied_to_nil. reflexivity.
  - rewrite fmap_cons. cbn [update_each known_prefix].
    unfold mbind, req_bind.
    destruct (known session (AdGroup.id g)) eqn:Hg.
    + destruct (api_updateGroup_known (AdGroup.id g) u session Hg) as [g' Hreq].
      rewrite Hreq, IH, known_prefix_applied_to, applied_to_cons.
      reflexivity.
    + rewrite api_updateGroup_unknown by exact Hg.
      simpl. rewrite applied_to_nil. reflexivity.
Qed.

Lemma applied_to_has_value (ids : list string) (u : FieldUpdate)
  (session : GroupedAssets.t) (h : AdGroup.t) :
  In h (GroupedAssets.groups (applied_to ids u session)) ->
  In (AdGroup.id h) ids ->
  has_value u h.
Proof.
  unfold applied_to. simpl. intros Hin Hid.
  apply in_map_iff in Hin as (h0 & <- & _).
  assert (Hsel : existsb (String.eqb (AdGroup.id h0)) ids = true).
  { apply existsb_exists. exists (AdGroup.id h0).
    split; [|apply String.eqb_refl].
    destruct (existsb (String.eqb (AdGroup.id h0)) ids);
      [rewrite apply_update_id in Hid|]; exact Hid. }
  rewrite Hsel. apply apply_update_has_value.
Qed.

Lemma store_update_applied_to (u : FieldUpdate) (session : GroupedAssets.t)
  (groupId : string) :
  store_update u session groupId = applied_to [groupId] u session.
Proof.
  unfold store_update, applied_to. f_equal.
  apply list_fmap_ext. intros _ h _. unfold has_id. simpl.
  rewrite orb_false_r. reflexivity.
Qed.

Lemma fold_store_update (u : FieldUpdate) (ids : list string) :
  forall session,
    fold_left (store_update u) ids session = applied_to ids u session.
Proof.
  induction ids as [|i ids IH]; intros session; simpl.
  - rewrite applied_to_nil. reflexivity.
  - rewrite IH, store_update_applied_to, applied_to_cons. reflexivity.
Qed.

Lemma applied_to_keeps_known (ids : list string) (u : FieldUpdate)
  (session : GroupedAssets.t) (groupId : string) :
  known session groupId = true -> In groupId ids ->
  exists h,
    In h (GroupedAssets.groups (applied_to ids u session))
    /\ AdGroup.id h = groupId /\ has_value u h.
Proof.
  intros Hknown Hin. unfold known in Hknown.
  apply existsb_exists in Hknown as (h0 & Hh0 & Hid).
  apply String.eqb_eq in Hid.
  exists (apply_update u h0). split; [|split].
  - unfold applied_to. simpl. apply in_map_iff. exists h0. split; [|exact Hh0].
    replace (existsb (String.eqb (AdGroup.id h0)) ids) with true; [reflexivity|].
    symmetry. apply existsb_exists. exists groupId.
    split; [exact Hin | apply String.eqb_eq; exact Hid].
  - rewrite apply_update_id. exact Hid.
  - apply apply_update_has_value.
Qed.

(** C4.  [bulkApply(group_ids, field, value)] sets the field to the value
    for every group in [group_ids]: when no id is missing from the
    snapshot, the new snapshot is the old one with the update applied to the
    groups named, each id names a group of it, and every group of it that is
    named has the value.  When some id is missing, the request fails with
    [NotFound] listing the missing ids and the snapshot is left as it was. *)
Theorem bulkApply_all_or_nothing
  (group_ids : list string) (u : FieldUpdate) (session : GroupedAssets.t) :
  let missing :=
    List.filter (fun groupId => negb (known session groupId)) group_ids in
  (forall groupId,
      In groupId missing
      <-> In groupId group_ids /\ known session groupId = false)
  /\ (missing = [] ->
      api_bulkApply group_ids u session
      = (Returned (applied_to group_ids u session),
         applied_to group_ids u session)
      /\ (forall groupId,
            In groupId group_ids ->
            exists h,
              In h (GroupedAssets.groups (applied_to group_ids u session))
              /\ AdGroup.id h = groupId /\ has_value u h)
      /\ (forall h,
            In h (GroupedAssets.groups (applied_to group_ids u session)) ->
            In (AdGroup.id h) group_ids -> has_value u h))
  /\ (missing <> [] ->
      api_bulkApply group_ids u session = (Thrown (NotFound missing), session)).
Proof.
  intros missing.
  assert (Hmissing : forall groupId,
             In groupId missing
             <-> In groupId group_ids /\ known session groupId = false).
  { intros groupId. unfold missing. rewrite filter_In, negb_true_iff. tauto. }
  split; [exact Hmissing|].
  unfold api_bulkApply, bulk_apply. cbv zeta.
  change (List.filter _ group_ids) with missing.
  split.
  - intros Hnone. rewrite Hnone, fold_store_update.
    split; [reflexivity|]. split; [|apply applied_to_has_value].
    intros groupId Hin. apply applied_to_keeps_known; [|exact Hin].
    destruct (known session groupId) eqn:Hknown; [reflexivity|].
    assert (Hin' : In groupId missing) by (apply Hmissing; auto).
    rewrite Hnone in Hin'. contradiction.
  - intros Hsome. destruct missing; [contradiction | reflexivity].
Qed.

Lemma bulkApply_all_or_nothing_witness :
  api_bulkApply ["g1"; "g9"] (set_product "Widget") session_g1
  = (Thrown (NotFound ["g9"]), session_g1)
  /\ AdGroup.product <$> GroupedAssets.groups session_g1 = [EmptyString]
  /\ AdGroup.product
       <$> GroupedAssets.groups
             (snd (api_bulkApply ["g1"] (set_product "Widget") session_g1))
     = ["Widget"].
Proof.
  destruct (bulkApply_all_or_nothing ["g1"; "g9"] (set_product "Widget")
              session_g1) as (_ & _ & Hfails).
  destruct (bulkApply_all_or_nothing ["g1"] (set_product "Widget")
              session_g1) as (_ & Hworks & _).
  destruct (Hworks eq_refl) as (Hrun & _ & _).
  split; [|split].
  - apply Hfails. discriminate.
  - reflexivity.
  - rewrite Hrun. reflexivity.
Defined.

(** ** The page's own bulk apply *)

Lemma handleBulkApply_session (u : FieldUpdate) (page : Page.t)
  (session data : GroupedAssets.t) :
  Page.analyzedGroups page = Some data ->
  snd (handleBulkApply u page session)
  = snd (update_each u (GroupedAssets.groups data) session).
Proof.
  intros Hshown. unfold handleBulkApply. rewrite Hshown.
  unfold mbind, req_bind.
  destruct (update_each u (GroupedAssets.groups data) session) as [[[]|e] s'];
    reflexivity.
Qed.

(** X19.  The page's bulk apply sends one update request per displayed
    group, in order, and is not atomic: whatever the outcome, the session
    ends with the update applied to exactly the groups named before the
    first id it does not know.  When it knows every id, the page shows the
    new snapshot; otherwise the page keeps the snapshot it displayed and
    logs the failure with the unknown id. *)
Theorem handleBulkApply_outcome
  (u : FieldUpdate) (page : Page.t) (session data : GroupedAssets.t) :
  Page.analyzedGroups page = Some data ->
  let ids := AdGroup.id <$> GroupedAssets.groups data in
  snd (handleBulkApply u page session)
  = applied_to (known_prefix session ids) u session
  /\ (forallb (known session) ids = true ->
      handleBulkApply u page session
      = (Page.mk (Some (applied_to ids u session)) (Page.console page),
         applied_to ids u session))
  /\ (forallb (known session) ids = false ->
      exists groupId,
        In groupId ids /\ known session groupId = false
        /\ fst (handleBulkApply u page session)
           = Page.mk (Page.analyzedGroups page)
               (("Bulk apply failed:", NotFound [groupId])
                  :: Page.console page)).
Proof.
  intros Hshown ids. split; [|split].
  - rewrite (handleBulkApply_session u page session data Hshown).
    apply update_each_session.
  - intros Hall. unfold handleBulkApply. rewrite Hshown.
    unfold mbind, req_bind.
    rewrite (update_each_all_known u _ session Hall). reflexivity.
  - intros Hsome. unfold handleBulkApply. rewrite Hshown.
    unfold mbind, req_bind.
    destruct (update_each_some_unknown u _ session Hsome)
      as (groupId & s' & -> & Hin & Hunknown).
    exists groupId. repeat split; assumption.
Qed.

Lemma handleBulkApply_outcome_witness :
  AdGroup.product
    <$> GroupedAssets.groups
          (snd (handleBulkApply (set_product "Widget") stale_page session_g1))
  = ["Widget"]
  /\ fst (handleBulkApply (set_product "Widget") stale_page session_g1)
     = Page.mk (Page.analyzedGroups stale_page)
         [("Bulk apply failed:", NotFound ["g9"])]
  /\ handleBulkApply (set_product "Widget") fresh_page session_g1
     = (Page.mk (Some (applied_to ["g1"] (set_product "Widget") session_g1))
          [],
        applied_to ["g1"] (set_product "Widget") session_g1).
Proof.
  destruct (handleBulkApply_outcome (set_product "Widget") fresh_page
              session_g1 session_g1 eq_refl) as (_ & Hshown & _).
  destruct (handleBulkApply_outcome (set_product "Widget") stale_page
              session_g1
              (GroupedAssets.mk
                 [ sample_group "g1" single 1
                     [sample_asset "a.jpg" IMG feed None];
                   sample_group "g9" single 2
                     [sample_asset "b.jpg" IMG feed None] ]
                 [])
              eq_refl) as (Hsession & _ & _).
  split; [rewrite Hsession; reflexivity|].
  split; [reflexivity|]. exact (Hshown eq_refl).
Defined.

(** ** Export rows *)









(** The later revision of the row type declares the same columns but the
    one for the angle score. *)
Lemma ExportRow_revisions (r : Rev005.ExportRow.t) :
  Rev005.ExportRow.columns r
  = List.filter (fun column => negb (String.eqb column "confidence_angle"))
      contract_columns.
Proof. reflexivity. Qed.

(** * Further properties of the modelled code *)

(** ** Generated file names *)

Lemma string_app_inv_head (s x y : string) : s +:+ x = s +:+ y -> x = y.
Proof.
  induction s as [|c s IH]; simpl; intros H; [exact H|].
  injection H as H. exact (IH H).
Qed.

(** A derived name starts with the padded ad number and an underscore. *)
Lemma derived_name_numeral (g : AdGroup.t) (a : ProcessedAsset.t) (i : nat) :
  ProcessedAsset.custom_filename a = None ->
  exists width tail,
    generateNewFileName g a i
    = zero_padded width (AdGroup.ad_number g) +:+ String "_" tail.
Proof.
  intros Hunset. unfold generateNewFileName. rewrite Hunset.
  cbn [JS.truthy_opt]. rewrite !padStart_String_zero_padded.
  destruct (AdGroup.group_type g); eexists _, _; reflexivity.
Qed.

Lemma extractNumber_derived (g : AdGroup.t) (a : ProcessedAsset.t) (i : nat) :
  ProcessedAsset.custom_filename a = None ->
  0 <= AdGroup.ad_number g ->
  extractNumber (generateNewFileName g a i) = Some (AdGroup.ad_number g).
Proof.
  intros Hunset Hn.
  destruct (derived_name_numeral g a i Hunset) as (width & tail & ->).
  apply extractNumber_numeral; [exact Hn | reflexivity].
Qed.

Lemma derived_names_differ_by_number
  (g1 g2 : AdGroup.t) (a1 a2 : ProcessedAsset.t) (i1 i2 : nat) :
  ProcessedAsset.custom_filename a1 = None ->
  ProcessedAsset.custom_filename a2 = None ->
  0 <= AdGroup.ad_number g1 -> 0 <= AdGroup.ad_number g2 ->
  generateNewFileName g1 a1 i1 = generateNewFileName g2 a2 i2 ->
  AdGroup.ad_number g1 = AdGroup.ad_number g2.
Proof.
  intros H1 H2 Hn1 Hn2 Heq.
  pose proof (extractNumber_derived g1 a1 i1 H1 Hn1) as E1.
  pose proof (extractNumber_derived g2 a2 i2 H2 Hn2) as E2.
  rewrite Heq in E1. congruence.
Qed.

Lemma carousel_names_differ_by_index
  (g : AdGroup.t) (a b : ProcessedAsset.t) (i j : nat) :
  AdGroup.group_type g = carousel ->
  ProcessedAsset.custom_filename a = None ->
  ProcessedAsset.custom_filename b = None ->
  generateNewFileName g a i = generateNewFileName g b j ->
  i = j.
Proof.
  intros Hcar Ha Hb. unfold generateNewFileName.
  rewrite Ha, Hb, Hcar. cbn [JS.truthy_opt].
  rewrite !padStart_String_zero_padded. intros Heq.
  apply string_app_inv_head in Heq.
  apply (string_app_inv_head "_CAR_Card") in Heq.
  assert (Hi : extractNumber
                 (zero_padded 2 (Z.of_nat i + 1) +:+ String "." (extension
                    (Asset.name (ProcessedAsset.asset a))))
               = Some (Z.of_nat i + 1))
    by (apply extractNumber_numeral; [lia | reflexivity]).
  assert (Hj : extractNumber
                 (zero_padded 2 (Z.of_nat j + 1) +:+ String "." (extension
                    (Asset.name (ProcessedAsset.asset b))))
               = Some (Z.of_nat j + 1))
    by (apply extractNumber_numeral; [lia | reflexivity]).
  change ("." +:+ ?e) with (String "." e) in Heq.
  rewrite Heq in Hi. rewrite Hi in Hj. injection Hj as Hj. lia.
Qed.

(** X1.  The number the review page reads off the start of a generated
    file name is the ad number of the group: for an asset without a custom
    name and an ad number that is not negative (and small enough to be
    read back exactly, below 2^53), [extractNumber] of the generated name
    is the ad number, whatever the group type, the index and the asset's
    own name. *)
Theorem generated_name_leading_number
  (g : AdGroup.t) (a : ProcessedAsset.t) (i : nat) :
  ProcessedAsset.custom_filename a = None ->
  0 <= AdGroup.ad_number g < 2 ^ 53 ->
  extractNumber (generateNewFileName g a i) = Some (AdGroup.ad_number g).
Proof. intros Hunset [Hn _]. apply extractNumber_derived; assumption. Qed.

Lemma generated_name_leading_number_witness :
  extractNumber
    (generateNewFileName
       (sample_group "g1" carousel 12345 [])
       (sample_asset "7_old.png" IMG unknown None) 2)
  = Some 12345.
Proof.
  apply (generated_name_leading_number
           (sample_group "g1" carousel 12345 [])
           (sample_asset "7_old.png" IMG unknown None) 2 eq_refl).
  simpl. lia.
Defined.

Lemma digit_not_underscore (c : ascii) :
  is_digit c = true -> Ascii.eqb c "_" = false.
Proof.
  intros Hc. destruct (Ascii.eqb_spec c "_") as [->|]; [discriminate Hc|].
  reflexivity.
Qed.

Lemma squeeze_after_digits (d t : string) :
  leading_digits d = d -> squeeze (d +:+ t) = d +:+ squeeze t.
Proof.
  induction d as [|c d IH]; intros Hd; [reflexivity|].
  simpl in Hd. destruct (is_digit c) eqn:Hc; [|discriminate Hd].
  injection Hd as Hd. simpl.
  rewrite (digit_not_underscore c Hc). simpl. rewrite (IH Hd). reflexivity.
Qed.

Lemma squeeze_underscore_head (rest : string) :
  exists rest', squeeze (String "_" rest) = String "_" rest'.
Proof.
  pose proof (squeeze_starts (String "_" rest)) as H.
  destruct (squeeze (String "_" rest)) as [|c rest']; [discriminate H|].
  simpl in H. apply Ascii.eqb_eq in H. subst c. eauto.
Qed.

Lemma extractNumber_squeezed_join (n : Z) (part : string) (parts : list string) :
  0 <= n ->
  extractNumber (squeeze (JS.join "_" (zero_padded 3 n :: part :: parts)))
  = Some n.
Proof.
  intros Hn. destruct (zero_padded_digits 3 n Hn) as (Hd & _ & _).
  change (JS.join "_" (zero_padded 3 n :: part :: parts))
    with (zero_padded 3 n +:+ String "_" (JS.join "_" (part :: parts))).
  rewrite (squeeze_after_digits _ _ Hd).
  destruct (squeeze_underscore_head (JS.join "_" (part :: parts)))
    as [rest' ->].
  apply extractNumber_numeral; [exact Hn | reflexivity].
Qed.

(** X2.  The ad-name preview of the asset table and the ad name pasted to
    the sheet both start with the ad number: when the ad number is not
    negative (and below 2^53), the number read off the start of either name
    is the ad number, whatever the other fields hold. *)
Theorem ad_names_leading_number (g : AdGroup.t) :
  0 <= AdGroup.ad_number g < 2 ^ 53 ->
  extractNumber (generateAdName g) = Some (AdGroup.ad_number g)
  /\ extractNumber (sheetAdName g) = Some (AdGroup.ad_number g).
Proof.
  intros [Hn _]. rewrite generateAdName_squeeze, sheetAdName_fields.
  unfold ad_name_fields, sheet_name_fields. split.
  - destruct (present (AdGroup.campaign g)) as [|c cs];
      [destruct (present (AdGroup.product g)) as [|p ps]|];
      apply extractNumber_squeezed_join; exact Hn.
  - destruct (present (AdGroup.product g)) as [|p ps];
      apply extractNumber_squeezed_join; exact Hn.
Qed.

Lemma ad_names_leading_number_witness :
  extractNumber (generateAdName full_group) = Some 12
  /\ extractNumber (sheetAdName full_group) = Some 12.
Proof.
  apply (ad_names_leading_number full_group). simpl. lia.
Defined.

(** X3.  Derived file names never collide across ad numbers or within a
    carousel: if two assets without custom names get the same generated
    name, their groups have the same ad number (ad numbers not negative);
    and two cards of one carousel get the same name only at the same
    index. *)
Theorem generated_names_collide_only_within_number
  (g1 g2 : AdGroup.t) (a1 a2 : ProcessedAsset.t) (i1 i2 : nat) :
  ProcessedAsset.custom_filename a1 = None ->
  ProcessedAsset.custom_filename a2 = None ->
  0 <= AdGroup.ad_number g1 -> 0 <= AdGroup.ad_number g2 ->
  generateNewFileName g1 a1 i1 = generateNewFileName g2 a2 i2 ->
  AdGroup.ad_number g1 = AdGroup.ad_number g2
  /\ (g1 = g2 -> AdGroup.group_type g1 = carousel -> i1 = i2).
Proof.
  intros H1 H2 Hn1 Hn2 Heq. split.
  - exact (derived_names_differ_by_number g1 g2 a1 a2 i1 i2
             H1 H2 Hn1 Hn2 Heq).
  - intros Hsame Hcar. subst g2.
    exact (carousel_names_differ_by_index g1 a1 a2 i1 i2 Hcar H1 H2 Heq).
Qed.

Lemma generated_names_collide_only_within_number_witness :
  AdGroup.ad_number (sample_group "g1" standard 1 [])
  = AdGroup.ad_number (sample_group "g2" single 1 [])
  /\ (sample_group "g1" standard 1 [] = sample_group "g2" single 1 [] ->
      AdGroup.group_type (sample_group "g1" standard 1 []) = carousel ->
      0%nat = 5%nat).
Proof.
  apply (generated_names_collide_only_within_number
           (sample_group "g1" standard 1 []) (sample_group "g2" single 1 [])
           (sample_asset "a.jpg" IMG story None)
           (sample_asset "b.jpg" IMG story None) 0 5 eq_refl eq_refl);
    [simpl; lia | simpl; lia | reflexivity].
Defined.

Lemma filename_at_Some (groups : list AdGroup.t) (gi ai : nat) (f : string) :
  filename_at groups gi ai = Some f
  <-> exists g a,
        groups !! gi = Some g /\ AdGroup.assets g !! ai = Some a
        /\ generateNewFileName g a ai = f.
Proof.
  unfold filename_at. split.
  - destruct (groups !! gi) as [g|] eqn:Hg; cbn; [|discriminate].
    destruct (AdGroup.assets g !! ai) as [a|] eqn:Ha; cbn; [|discriminate].
    intros [= <-]. exists g, a. auto.
  - intros (g & a & Hg & Ha & <-). rewrite Hg. cbn. rewrite Ha. reflexivity.
Qed.

Lemma duplicateFilenames_produced_twice (groups : list AdGroup.t) (f : string) :
  f ∈ duplicateFilenames groups <-> produced_twice groups f.
Proof.
  rewrite duplicateFilenames_occurrences. apply produced_twice_occurrences.
Qed.

(** X4.  Without custom names, and with ad numbers that are not negative
    and differ from group to group, the duplicate set never holds a name
    that two different groups share, nor one from a carousel: every name
    in it is produced twice inside one group that is not a carousel. *)
Theorem duplicates_only_within_a_group (groups : list AdGroup.t) (f : string) :
  no_custom_names groups ->
  (forall g, In g groups -> 0 <= AdGroup.ad_number g) ->
  (forall gi gj g1 g2,
      groups !! gi = Some g1 -> groups !! gj = Some g2 ->
      AdGroup.ad_number g1 = AdGroup.ad_number g2 -> gi = gj) ->
  f ∈ duplicateFilenames groups ->
  exists gi g ai aj,
    groups !! gi = Some g
    /\ AdGroup.group_type g <> carousel
    /\ ai <> aj
    /\ filename_at groups gi ai = Some f
    /\ filename_at groups gi aj = Some f.
Proof.
  intros Hplain Hnonneg Hdistinct Hdup.
  apply duplicateFilenames_produced_twice in Hdup
    as (gi & ai & gj & aj & Hne & Hi & Hj).
  pose proof Hi as Hi'. pose proof Hj as Hj'.
  apply filename_at_Some in Hi' as (g1 & a1 & Hg1 & Ha1 & Hf1).
  apply filename_at_Some in Hj' as (g2 & a2 & Hg2 & Ha2 & Hf2).
  assert (Hin1 : In g1 groups)
    by (apply list_elem_of_In, list_elem_of_lookup; eauto).
  assert (Hin2 : In g2 groups)
    by (apply list_elem_of_In, list_elem_of_lookup; eauto).
  assert (Hc1 : ProcessedAsset.custom_filename a1 = None).
  { apply (Hplain g1 a1 Hin1).
    apply list_elem_of_In, list_elem_of_lookup; eauto. }
  assert (Hc2 : ProcessedAsset.custom_filename a2 = None).
  { apply (Hplain g2 a2 Hin2).
    apply list_elem_of_In, list_elem_of_lookup; eauto. }
  assert (Hsame : gi = gj).
  { apply (Hdistinct gi gj g1 g2 Hg1 Hg2).
    apply (derived_names_differ_by_number g1 g2 a1 a2 ai aj Hc1 Hc2);
      [apply Hnonneg; exact Hin1 | apply Hnonneg; exact Hin2 | congruence]. }
  subst gj. assert (g2 = g1) by congruence. subst g2.
  exists gi, g1, ai, aj. repeat split; try assumption.
  - intros Hcar.
    assert (ai = aj)
      by (apply (carousel_names_differ_by_index g1 a1 a2 ai aj Hcar Hc1 Hc2);
          congruence).
    congruence.
  - congruence.
Qed.

Lemma duplicates_only_within_a_group_witness :
  exists gi g ai aj,
    twin_groups !! gi = Some g
    /\ AdGroup.group_type g <> carousel
    /\ ai <> aj
    /\ filename_at twin_groups gi ai = Some "001_IMG_story.jpg"
    /\ filename_at twin_groups gi aj = Some "001_IMG_story.jpg".
Proof.
  apply (duplicates_only_within_a_group twin_groups "001_IMG_story.jpg").
  - intros g a [<- | [<- | []]] Ha; simpl in Ha;
      repeat (destruct Ha as [<- | Ha]; [reflexivity|]); destruct Ha.
  - intros g [<- | [<- | []]]; simpl; lia.
  - intros [|[|gi]] [|[|gj]] g1 g2 H1 H2; simpl in H1, H2;
      try discriminate; injection H1 as <-; injection H2 as <-;
      simpl; intros Hn; try reflexivity; discriminate Hn.
  - apply duplicateFilenames_occurrences. vm_compute. lia.
Defined.

Lemma occurrences_bind_perm (f : string) (groups groups' : list AdGroup.t) :
  Permutation groups groups' ->
  occurrences f (groups ≫= group_filenames)
  = occurrences f (groups' ≫= group_filenames).
Proof.
  induction 1 as [|g l l' _ IH|g h l|l l' l'' _ IH1 _ IH2].
  - reflexivity.
  - rewrite !bind_cons, !occurrences_app, IH. reflexivity.
  - rewrite !bind_cons, !occurrences_app. lia.
  - congruence.
Qed.

Lemma duplicateFilenames_perm (groups groups' : list AdGroup.t) :
  Permutation groups groups' ->
  duplicateFilenames groups = duplicateFilenames groups'.
Proof.
  intros Hperm. apply set_eq. intros f.
  rewrite !duplicateFilenames_occurrences,
    (occurrences_bind_perm f groups groups' Hperm).
  reflexivity.
Qed.

(** X5.  The duplicate set does not depend on the display order: the
    asset table is handed the sorted groups, and the set it computes from
    them is the set of the snapshot's own order, whatever the locale
    comparison does. *)
Theorem duplicateFilenames_of_sortedGroups
  (localeCompare : string -> string -> Z) (data : GroupedAssets.t) :
  duplicateFilenames (sortedGroups localeCompare (Some data))
  = duplicateFilenames (GroupedAssets.groups data).
Proof. apply duplicateFilenames_perm. simpl. apply sort_perm. Qed.

Lemma generateNewFileName_truthy_custom
  (g : AdGroup.t) (a : ProcessedAsset.t) (i : nat) (s : string) :
  ProcessedAsset.custom_filename a = Some s -> s <> EmptyString ->
  generateNewFileName g a i = s.
Proof.
  intros Hset Hne. unfold generateNewFileName. rewrite Hset.
  destruct s; [contradiction | reflexivity].
Qed.

(** X6.  A custom name typed for two assets is always flagged: if two
    distinct places of the snapshot hold assets with the same non-empty
    custom file name, that name is in the duplicate set. *)
Theorem custom_name_collision_flagged
  (groups : list AdGroup.t) (gi ai gj aj : nat)
  (g1 g2 : AdGroup.t) (a1 a2 : ProcessedAsset.t) (s : string) :
  (gi, ai) <> (gj, aj) ->
  groups !! gi = Some g1 -> AdGroup.assets g1 !! ai = Some a1 ->
  groups !! gj = Some g2 -> AdGroup.assets g2 !! aj = Some a2 ->
  ProcessedAsset.custom_filename a1 = Some s ->
  ProcessedAsset.custom_filename a2 = Some s ->
  s <> EmptyString ->
  s ∈ duplicateFilenames groups.
Proof.
  intros Hne Hg1 Ha1 Hg2 Ha2 Hc1 Hc2 Hs.
  apply duplicateFilenames_produced_twice.
  exists gi, ai, gj, aj. split; [exact Hne|]. split.
  - apply filename_at_Some. exists g1, a1. repeat split; try assumption.
    apply generateNewFileName_truthy_custom; assumption.
  - apply filename_at_Some. exists g2, a2. repeat split; try assumption.
    apply generateNewFileName_truthy_custom; assumption.
Qed.

Lemma custom_name_collision_flagged_witness :
  "hero.jpg" ∈ duplicateFilenames retyped_groups.
Proof.
  apply (custom_name_collision_flagged retyped_groups 0 0 1 0
           (sample_group "g1" single 1
              [sample_asset "a.jpg" IMG story (Some "hero.jpg")])
           (sample_group "g2" single 2
              [sample_asset "b.png" IMG feed (Some "hero.jpg")])
           (sample_asset "a.jpg" IMG story (Some "hero.jpg"))
           (sample_asset "b.png" IMG feed (Some "hero.jpg"))
           "hero.jpg");
    try reflexivity; discriminate.
Defined.

(** ** Extensions *)

Lemma after_last_dot_suffix (name suffix : string) :
  after_last_dot name = Some suffix -> after_last_dot suffix = None.
Proof.
  revert suffix. induction name as [|c name IH]; intros suffix; simpl;
    [discriminate|].
  destruct (after_last_dot name) as [suffix'|] eqn:Hrest.
  - intros [= <-]. apply (IH suffix'). reflexivity.
  - destruct (Ascii.eqb c "."); [|discriminate]. intros [= <-]. exact Hrest.
Qed.

Lemma after_last_dot_app (s t suffix : string) :
  after_last_dot t = Some suffix -> after_last_dot (s +:+ t) = Some suffix.
Proof.
  intros Ht. induction s as [|c s IH]; simpl; [exact Ht|].
  rewrite IH. reflexivity.
Qed.

Lemma extension_nonempty_dotless (name : string) :
  extension name <> EmptyString /\ after_last_dot (extension name) = None.
Proof.
  rewrite extension_by_last_dot.
  destruct (after_last_dot name) as [suffix|] eqn:Hdot; simpl.
  - apply after_last_dot_suffix in Hdot.
    destruct suffix; simpl; [split; [discriminate | reflexivity]|].
    split; [discriminate | exact Hdot].
  - destruct name; simpl; [split; [discriminate | reflexivity]|].
    split; [discriminate | exact Hdot].
Qed.

Lemma derived_name_ends_with_extension
  (g : AdGroup.t) (a : ProcessedAsset.t) (i : nat) :
  ProcessedAsset.custom_filename a = None ->
  after_last_dot (generateNewFileName g a i)
  = Some (extension (Asset.name (ProcessedAsset.asset a))).
Proof.
  intros Hunset. unfold generateNewFileName. rewrite Hunset.
  cbn [JS.truthy_opt].
  destruct (extension_nonempty_dotless (Asset.name (ProcessedAsset.asset a)))
    as [_ Hdotless].
  assert (Hlast : after_last_dot
                    ("." +:+ extension (Asset.name (ProcessedAsset.asset a)))
                  = Some (extension (Asset.name (ProcessedAsset.asset a)))).
  { change ("." +:+ ?e) with (String "." e). cbn [after_last_dot].
    rewrite Hdotless. reflexivity. }
  rewrite !padStart_String_zero_padded.
  destruct (AdGroup.group_type g).
  - apply (after_last_dot_app (zero_padded 3 _)), (after_last_dot_app "_"),
      (after_last_dot_app (AssetType_token _)), (after_last_dot_app "_"),
      (after_last_dot_app (Placement_token _)).
    exact Hlast.
  - apply (after_last_dot_app (zero_padded 4 _)),
      (after_last_dot_app "_CAR_Card"), (after_last_dot_app (zero_padded 2 _)).
    exact Hlast.
  - apply (after_last_dot_app (zero_padded 3 _)), (after_last_dot_app "_"),
      (after_last_dot_app (AssetType_token _)), (after_last_dot_app "_"),
      (after_last_dot_app (Placement_token _)).
    exact Hlast.
Qed.

(** X7.  The extension the namer appends is never empty and never holds a
    dot, whatever the source name is (empty, without a dot, ending in a
    dot, with several dots). *)
Theorem extension_never_empty_nor_dotted (name : string) :
  extension name <> EmptyString
  /\ after_last_dot (extension name) = None
  /\ JS.split "." (extension name) = [extension name].
Proof.
  destruct (extension_nonempty_dotless name) as [Hne Hdot].
  repeat split; [exact Hne | exact Hdot|].
  pose proof (split_dot_last (extension name)) as H.
  rewrite Hdot in H. exact H.
Qed.

(** X8.  Renaming is stable: for an asset without a custom name, the
    generated name ends in a dot and the extension taken from the source
    name, it has that same extension again, and an asset that carries the
    generated name as its file name is given the very same name. *)
Theorem generateNewFileName_rename_stable
  (g : AdGroup.t) (a : ProcessedAsset.t) (i : nat) :
  ProcessedAsset.custom_filename a = None ->
  after_last_dot (generateNewFileName g a i)
  = Some (extension (Asset.name (ProcessedAsset.asset a)))
  /\ extension (generateNewFileName g a i)
     = extension (Asset.name (ProcessedAsset.asset a))
  /\ generateNewFileName g (with_name (generateNewFileName g a i) a) i
     = generateNewFileName g a i.
Proof.
  intros Hunset.
  pose proof (derived_name_ends_with_extension g a i Hunset) as Hend.
  assert (Hext : extension (generateNewFileName g a i)
                 = extension (Asset.name (ProcessedAsset.asset a))).
  { rewrite (extension_by_last_dot (generateNewFileName g a i)), Hend. simpl.
    destruct (extension_nonempty_dotless
                (Asset.name (ProcessedAsset.asset a))) as [Hne _].
    destruct (extension (Asset.name (ProcessedAsset.asset a)));
      [contradiction | reflexivity]. }
  repeat split; [exact Hend | exact Hext|].
  unfold generateNewFileName at 1. simpl. rewrite Hunset.
  cbn [JS.truthy_opt]. rewrite Hext.
  unfold generateNewFileName. rewrite Hunset. reflexivity.
Qed.

Lemma generateNewFileName_rename_stable_witness :
  generateNewFileName
    (sample_group "g1" standard 7 [])
    (with_name "007_VID_feed.mov"
       (sample_asset "clip.final.mov" VID feed None)) 0
  = "007_VID_feed.mov".
Proof.
  destruct (generateNewFileName_rename_stable
              (sample_group "g1" standard 7 [])
              (sample_asset "clip.final.mov" VID feed None) 0 eq_refl)
    as (_ & _ & Hstable).
  exact Hstable.
Defined.

(** ** Splitting names back into their fields *)

Lemma contains_app (c : ascii) (s t : string) :
  contains c (s +:+ t) = contains c s || contains c t.
Proof.
  induction s as [|x s IH]; simpl; [reflexivity|].
  rewrite IH, orb_assoc. reflexivity.
Qed.

Lemma split_free (c : ascii) (s : string) :
  contains c s = false -> JS.split c s = [s].
Proof.
  induction s as [|x s IH]; simpl; [reflexivity|].
  intros H. apply orb_false_elim in H as [Hx Hs].
  rewrite Hx, (IH Hs). reflexivity.
Qed.

Lemma split_head (c : ascii) (s t : string) :
  contains c s = false ->
  JS.split c (s +:+ String c t) = s :: JS.split c t.
Proof.
  induction s as [|x s IH]; simpl.
  - intros _. rewrite Ascii.eqb_refl. reflexivity.
  - intros H. apply orb_false_elim in H as [Hx Hs].
    rewrite Hx, (IH Hs). reflexivity.
Qed.

(** Joining parts that are free of the separator and splitting again
    gives the parts back. *)
Lemma split_join (c : ascii) (parts : list string) :
  parts <> [] ->
  Forall (fun p => contains c p = false) parts ->
  JS.split c (JS.join (String c EmptyString) parts) = parts.
Proof.
  induction parts as [|p [|q parts] IH]; intros Hne Hfree.
  - contradiction.
  - simpl. apply split_free. inversion Hfree; assumption.
  - change (JS.join (String c EmptyString) (p :: q :: parts))
      with (p +:+ String c (JS.join (String c EmptyString) (q :: parts))).
    inversion Hfree as [|? ? Hp Hrest]; subst.
    rewrite (split_head c p _ Hp), IH; [reflexivity | discriminate | exact Hrest].
Qed.

Lemma digits_free_of (c : ascii) (d : string) :
  is_digit c = false -> leading_digits d = d -> contains c d = false.
Proof.
  intros Hc. induction d as [|x d IH]; simpl; [reflexivity|].
  destruct (is_digit x) eqn:Hx; [|discriminate].
  intros [= Hd]. rewrite (IH Hd), orb_false_r.
  apply Ascii.eqb_neq. intros ->. congruence.
Qed.

Lemma zero_padded_free_of (c : ascii) (width : nat) (n : Z) :
  is_digit c = false -> 0 <= n -> contains c (zero_padded width n) = false.
Proof.
  intros Hc Hn. apply digits_free_of; [exact Hc|].
  apply zero_padded_digits. exact Hn.
Qed.

Lemma app_single (c : ascii) (s : string) :
  String c EmptyString +:+ s = String c s.
Proof. reflexivity. Qed.

(** X9.  The file name preview of the group card can be taken apart
    again: when the ad number is not negative and campaign, product,
    format token, angle and date hold no underscore, splitting the preview
    at the underscores gives exactly its seven fields, in order. *)
Theorem groupCardFilename_split (g : AdGroup.t) :
  0 <= AdGroup.ad_number g ->
  contains "_" (AdGroup.campaign g) = false ->
  contains "_" (AdGroup.product g) = false ->
  contains "_" (AdGroup.format_token g) = false ->
  contains "_" (AdGroup.angle g) = false ->
  contains "_" (AdGroup.date g) = false ->
  JS.split "_" (groupCardFilename g)
  = [ zero_padded 3 (AdGroup.ad_number g); AdGroup.campaign g;
      AdGroup.product g; AdGroup.format_token g; AdGroup.angle g;
      if AdGroup.offer g then "Yes" else "No"; AdGroup.date g ].
Proof.
  intros Hn Hc Hp Hf Ha Hd. unfold groupCardFilename.
  rewrite padStart_String_zero_padded.
  rewrite !app_single.
  rewrite (split_head "_" (zero_padded 3 _)) by
    (apply zero_padded_free_of; [reflexivity | exact Hn]).
  rewrite (split_head "_" _ _ Hc), (split_head "_" _ _ Hp),
    (split_head "_" _ _ Hf), (split_head "_" _ _ Ha).
  rewrite (split_head "_" (if AdGroup.offer g then "Yes" else "No"))
    by (destruct (AdGroup.offer g); reflexivity).
  rewrite (split_free "_" _ Hd). reflexivity.
Qed.

Lemma groupCardFilename_split_witness :
  JS.split "_" (groupCardFilename full_group)
  = ["012"; "JanAds"; "Widget"; "IMG"; "Price"; "Yes"; "2026.01.05"].
Proof.
  apply (groupCardFilename_split full_group); [simpl; lia | reflexivity..].
Defined.

Lemma present_free_of (c : ascii) (s : string) :
  contains c s = false ->
  Forall (fun p => p <> EmptyString /\ contains c p = false) (present s).
Proof.
  intros H. destruct s; simpl; [constructor|].
  repeat constructor; [discriminate | exact H].
Qed.

Lemma marker_free_of (c : ascii) (flag : bool) (m : string) :
  m <> EmptyString -> contains c m = false ->
  Forall (fun p => p <> EmptyString /\ contains c p = false) (marker flag m).
Proof. intros Hne H. destruct flag; simpl; repeat constructor; assumption. Qed.

(** The fields of the preview are non-empty and free of [c] when the
    group's texts are, the format token is not empty and [c] is no digit. *)
Lemma ad_name_fields_free_of (c : ascii) (g : AdGroup.t) :
  is_digit c = false -> contains c "Offer" = false ->
  0 <= AdGroup.ad_number g ->
  AdGroup.format_token g <> EmptyString ->
  fields_free_of c g ->
  Forall (fun p => p <> EmptyString /\ contains c p = false)
    (ad_name_fields g).
Proof.
  intros Hc Hoffer Hn Hformat (Hca & Hpr & Hfo & Han & Hho & Hcr & Hda).
  unfold ad_name_fields. rewrite !Forall_app. repeat split;
    try (apply present_free_of; assumption).
  - repeat constructor; [apply zero_padded_digits; exact Hn|].
    apply zero_padded_free_of; assumption.
  - repeat constructor; assumption.
  - apply marker_free_of; [discriminate | exact Hoffer].
Qed.

Lemma has_double_free (s : string) :
  contains "_" s = false -> has_double_underscore s = false.
Proof.
  induction s as [|x s IH]; simpl; [reflexivity|].
  intros H. apply orb_false_elim in H as [Hx Hs].
  rewrite Hx, (IH Hs). reflexivity.
Qed.

Lemma has_double_head (p rest : string) :
  contains "_" p = false ->
  has_double_underscore (p +:+ String "_" rest)
  = starts_with_underscore rest || has_double_underscore rest.
Proof.
  induction p as [|x p IH]; simpl; [reflexivity|].
  intros H. apply orb_false_elim in H as [Hx Hp].
  rewrite Hx, (IH Hp). reflexivity.
Qed.

Lemma join_starts (q : string) (parts : list string) :
  q <> EmptyString -> contains "_" q = false ->
  starts_with_underscore (JS.join "_" (q :: parts)) = false.
Proof.
  intros Hne Hfree. destruct q as [|x q]; [contradiction|].
  simpl in Hfree. apply orb_false_elim in Hfree as [Hx _].
  destruct parts; simpl; exact Hx.
Qed.

Lemma join_no_double (parts : list string) :
  Forall (fun p => p <> EmptyString /\ contains "_" p = false) parts ->
  has_double_underscore (JS.join "_" parts) = false.
Proof.
  induction parts as [|p [|q parts] IH]; intros Hclean.
  - reflexivity.
  - simpl. apply has_double_free. inversion Hclean as [|? ? [_ Hp] _]; exact Hp.
  - change (JS.join "_" (p :: q :: parts))
      with (p +:+ String "_" (JS.join "_" (q :: parts))).
    inversion Hclean as [|? ? [_ Hp] Hrest]; subst.
    rewrite (has_double_head _ _ Hp), (IH Hrest).
    inversion Hrest as [|? ? [Hq Hqf] _]; subst.
    rewrite (join_starts q parts Hq Hqf). reflexivity.
Qed.

Lemma squeeze_no_double (s : string) :
  has_double_underscore s = false -> squeeze s = s.
Proof.
  induction s as [|c s IH]; simpl; [reflexivity|].
  intros H. apply orb_false_elim in H as [Hskip Hs].
  rewrite Hskip, (IH Hs). reflexivity.
Qed.

(** X10.  With clean fields the ad-name preview is the plain join and can
    be taken apart again: when the ad number is not negative, the format
    token is not empty and no text of the group holds an underscore, the
    replacement of underscore runs changes nothing and splitting the
    preview at the underscores gives exactly the fields that are present,
    in order. *)
Theorem generateAdName_split (g : AdGroup.t) :
  0 <= AdGroup.ad_number g ->
  AdGroup.format_token g <> EmptyString ->
  fields_free_of "_" g ->
  generateAdName g = JS.join "_" (ad_name_fields g)
  /\ JS.split "_" (generateAdName g) = ad_name_fields g.
Proof.
  intros Hn Hformat Hfree.
  pose proof (ad_name_fields_free_of "_" g eq_refl eq_refl Hn Hformat Hfree)
    as Hclean.
  assert (Hplain : generateAdName g = JS.join "_" (ad_name_fields g)).
  { rewrite generateAdName_squeeze. apply squeeze_no_double, join_no_double.
    exact Hclean. }
  split; [exact Hplain|]. rewrite Hplain. apply split_join.
  - unfold ad_name_fields. discriminate.
  - eapply Forall_impl; [exact Hclean|]. intros p [_ Hp]. exact Hp.
Qed.

Lemma generateAdName_split_witness :
  JS.split "_" (generateAdName plain_sample)
  = ["003"; "Widget"; "VID"; "Hook"; "Ana"; "2026.01.05"].
Proof.
  destruct (generateAdName_split plain_sample) as [_ Hsplit];
    [simpl; lia | discriminate | repeat split | exact Hsplit].
Defined.

Lemma contains_squeeze (c : ascii) (s : string) :
  contains c s = false -> contains c (squeeze s) = false.
Proof.
  induction s as [|x s IH]; simpl; [reflexivity|].
  intros H. apply orb_false_elim in H as [Hx Hs].
  destruct (Ascii.eqb x "_" && starts_with_underscore s); simpl;
    rewrite ?Hx, (IH Hs); reflexivity.
Qed.

Lemma contains_join (c : ascii) (sep : string) (parts : list string) :
  contains c sep = false ->
  Forall (fun p => contains c p = false) parts ->
  contains c (JS.join sep parts) = false.
Proof.
  intros Hsep. induction parts as [|p [|q parts] IH]; intros Hfree.
  - reflexivity.
  - simpl. inversion Hfree; assumption.
  - change (JS.join sep (p :: q :: parts))
      with (p +:+ sep +:+ JS.join sep (q :: parts)).
    inversion Hfree as [|? ? Hp Hrest]; subst.
    rewrite !contains_app, Hp, Hsep, (IH Hrest). reflexivity.
Qed.

Lemma ad_name_fields_contain (c : ascii) (g : AdGroup.t) :
  is_digit c = false -> contains c "Offer" = false ->
  0 <= AdGroup.ad_number g ->
  fields_free_of c g ->
  Forall (fun p => contains c p = false) (ad_name_fields g).
Proof.
  intros Hc Hoffer Hn (Hca & Hpr & Hfo & Han & Hho & Hcr & Hda).
  assert (Hpresent : forall s, contains c s = false ->
                               Forall (fun p => contains c p = false) (present s)).
  { intros s Hs. destruct s; simpl; repeat constructor. exact Hs. }
  unfold ad_name_fields. rewrite !Forall_app. repeat split;
    try (apply Hpresent; assumption).
  - repeat constructor. apply zero_padded_free_of; assumption.
  - repeat constructor. exact Hfo.
  - destruct (AdGroup.offer g); simpl; repeat constructor. exact Hoffer.
Qed.

Lemma copyAdName_preview (g : AdGroup.t) : copyAdName g = generateAdName g.
Proof. reflexivity. Qed.

(** X11.  The lines the copy button writes are the previews of the asset
    table: when there is a group to copy, ad numbers are not negative and
    no text of a group holds a line break, splitting the copied text into
    lines gives, group by group in display order, exactly the ad-name
    preview of each group. *)
Theorem copyAdNames_lines (sortedGroups : list AdGroup.t) :
  sortedGroups <> [] ->
  Forall (fun g => 0 <= AdGroup.ad_number g /\ fields_free_of newline g)
    sortedGroups ->
  JS.split newline (copyAdNames sortedGroups)
  = generateAdName <$> sortedGroups.
Proof.
  intros Hne Hclean. unfold copyAdNames.
  assert (Hnames : copyAdName <$> sortedGroups = generateAdName <$> sortedGroups)
    by (apply list_fmap_ext; intros; apply copyAdName_preview).
  rewrite Hnames. apply split_join.
  - destruct sortedGroups; [contradiction | discriminate].
  - apply Forall_fmap. eapply Forall_impl; [exact Hclean|].
    intros g (Hn & Hfree). simpl.
    rewrite generateAdName_squeeze. apply contains_squeeze, contains_join;
      [reflexivity|].
    exact (ad_name_fields_contain newline g eq_refl eq_refl Hn Hfree).
Qed.

Lemma copyAdNames_lines_witness :
  JS.split newline (copyAdNames [full_group; plain_sample])
  = [ "012_JanAds_Widget_IMG_Price_Hook_Ana_Offer_2026.01.05";
      "003_Widget_VID_Hook_Ana_2026.01.05" ].
Proof.
  apply (copyAdNames_lines [full_group; plain_sample]); [discriminate|].
  repeat constructor; simpl; lia.
Defined.

(** ** Display order, continued *)

Section SortKeeps.

Context {A : Type} (compare : A -> A -> Z) (P : A -> bool).

(** The elements picked by [P] keep their order under [sort] when
    [compare] never puts a picked element behind another picked one. *)
Lemma filter_sort_insert (x : A) (l : list A) :
  (forall y, In y l -> 0 < compare x y -> P x = true -> P y = false) ->
  List.filter P (sort_insert compare x l) = List.filter P (x :: l).
Proof.
  induction l as [|y l IH]; intros Hmoved; [reflexivity|].
  cbn [sort_insert]. destruct (Z.ltb_spec 0 (compare x y)) as [Hafter|Hbefore];
    [|reflexivity].
  cbn [List.filter]. rewrite IH by (intros z Hz; apply Hmoved; right; exact Hz).
  cbn [List.filter]. destruct (P x) eqn:Hx; [|reflexivity].
  rewrite (Hmoved y (or_introl eq_refl) Hafter eq_refl). reflexivity.
Qed.

Lemma filter_sort (l : list A) :
  (forall x y, In x l -> In y l -> 0 < compare x y -> P x = true ->
               P y = false) ->
  List.filter P (sort compare l) = List.filter P l.
Proof.
  induction l as [|x l IH]; intros Hmoved; [reflexivity|].
  cbn [sort]. rewrite filter_sort_insert.
  - cbn [List.filter]. rewrite IH; [reflexivity|].
    intros y z Hy Hz. apply Hmoved; right; assumption.
  - intros y Hy. apply Hmoved; [left; reflexivity|].
    right. eapply Permutation_in; [apply sort_perm | exact Hy].
Qed.

End SortKeeps.

(** X12.  The display order is stable: when every group's first file name
    starts with a number, the groups whose names start with the same number
    are displayed in the order the snapshot lists them. *)
Theorem sortedGroups_stable
  (localeCompare : string -> string -> Z) (data : GroupedAssets.t) (k : Z) :
  (forall g, In g (GroupedAssets.groups data) -> exists n, leading_number g n) ->
  List.filter (has_leading_number k) (sortedGroups localeCompare (Some data))
  = List.filter (has_leading_number k) (GroupedAssets.groups data).
Proof.
  intros Hnumbered. simpl. apply filter_sort.
  intros x y Hx Hy Hafter Hpicked.
  destruct (Hnumbered x Hx) as (m & Hm & _).
  destruct (Hnumbered y Hy) as (n & Hn & _).
  unfold compareGroups in Hafter. cbv zeta in Hafter.
  rewrite Hm, Hn in Hafter.
  unfold has_leading_number in Hpicked |- *. rewrite Hm in Hpicked. rewrite Hn.
  apply Z.eqb_eq in Hpicked. apply Z.eqb_neq. lia.
Qed.

Lemma sortedGroups_stable_witness :
  AdGroup.id
    <$> List.filter (has_leading_number 1)
          (sortedGroups sample_localeCompare (Some tied_snapshot))
  = ["g1a"; "g1b"].
Proof.
  rewrite (sortedGroups_stable sample_localeCompare tied_snapshot 1).
  - reflexivity.
  - intros g [<- | [<- | [<- | []]]].
    + exists 2. split; [reflexivity | lia].
    + exists 1. split; [reflexivity | lia].
    + exists 1. split; [reflexivity | lia].
Defined.

Lemma totalAssets_from (groups : list AdGroup.t) :
  forall start : nat,
    fold_left (fun sum g => (sum + length (AdGroup.assets g))%nat) groups start
    = (start + length (groups ≫= group_filenames))%nat.
Proof.
  induction groups as [|g groups IH]; intros start; [simpl; lia|].
  cbn [fold_left]. rewrite bind_cons, IH, length_app.
  assert (Hg : length (group_filenames g) = length (AdGroup.assets g))
    by apply length_imap.
  rewrite Hg. lia.
Qed.

Lemma filenames_length_perm (groups groups' : list AdGroup.t) :
  Permutation groups groups' ->
  length (groups ≫= group_filenames) = length (groups' ≫= group_filenames).
Proof.
  induction 1 as [|g l l' _ IH|g h l|l l' l'' _ IH1 _ IH2].
  - reflexivity.
  - rewrite !bind_cons, !length_app, IH. reflexivity.
  - rewrite !bind_cons, !length_app. lia.
  - congruence.
Qed.

(** X13.  The asset count in the page header is the number of file names
    the table generates, and sorting does not change it: it is the same
    for the displayed groups as for the snapshot, and 0 when no snapshot is
    loaded. *)
Theorem totalAssets_of_sortedGroups
  (localeCompare : string -> string -> Z) (data : GroupedAssets.t) :
  totalAssets (sortedGroups localeCompare (Some data))
  = totalAssets (GroupedAssets.groups data)
  /\ totalAssets (GroupedAssets.groups data)
     = length (GroupedAssets.groups data ≫= group_filenames)
  /\ totalAssets (sortedGroups localeCompare None) = 0%nat.
Proof.
  unfold totalAssets. rewrite !totalAssets_from. repeat split.
  simpl. apply filenames_length_perm, sort_perm.
Qed.

(** ** Confidence classes *)

Lemma getConfidenceClass_high (value : Q) :
  getConfidenceClass value = "high" <-> (threshold_high <= value)%Q.
Proof.
  unfold getConfidenceClass. rewrite <- Qle_bool_iff.
  destruct (Qle_bool threshold_high value);
    [tauto | destruct (Qle_bool threshold_medium value)];
    split; discriminate.
Qed.

Lemma getConfidenceClass_low (value : Q) :
  getConfidenceClass value = "low" <-> (value < threshold_medium)%Q.
Proof.
  unfold getConfidenceClass.
  destruct (Qle_bool threshold_high value) eqn:Hhigh.
  - apply Qle_bool_iff in Hhigh. split; [discriminate|].
    intros Hlow. exfalso.
    assert (Horder : (threshold_medium < threshold_high)%Q) by reflexivity.
    apply (Qlt_not_le _ _ Hlow).
    apply Qlt_le_weak. eapply Qlt_le_trans; eassumption.
  - destruct (Qle_bool threshold_medium value) eqn:Hmedium.
    + apply Qle_bool_iff in Hmedium. split; [discriminate|].
      intros Hlow. exfalso. exact (Qlt_not_le _ _ Hlow Hmedium).
    + split; [intros _ | reflexivity].
      apply Qnot_le_lt. intros Hle. apply Qle_bool_iff in Hle. congruence.
Qed.

(** X14.  The badge of a group card shows the weakest of the four
    scores: its class is [high] exactly when the classes of the group,
    product, angle and offer scores are all [high], and [low] exactly when
    at least one of them is [low]. *)
Theorem badgeClass_weakest (g : AdGroup.t) :
  let c := AdGroup.confidence g in
  (badgeClass g = "high"
   <-> getConfidenceClass (ConfidenceScores.group c) = "high"
       /\ getConfidenceClass (ConfidenceScores.product c) = "high"
       /\ getConfidenceClass (ConfidenceScores.angle c) = "high"
       /\ getConfidenceClass (ConfidenceScores.offer c) = "high")
  /\ (badgeClass g = "low"
      <-> getConfidenceClass (ConfidenceScores.group c) = "low"
          \/ getConfidenceClass (ConfidenceScores.product c) = "low"
          \/ getConfidenceClass (ConfidenceScores.angle c) = "low"
          \/ getConfidenceClass (ConfidenceScores.offer c) = "low").
Proof.
  intros c. unfold badgeClass, minConfidence. fold c. split.
  - rewrite !getConfidenceClass_high, !Q.min_glb_iff. tauto.
  - rewrite !getConfidenceClass_low, !Q.min_lt_iff. tauto.
Qed.

(** ** Drag and drop *)

(** X15.  What a drop does, with both callbacks passed: nothing exactly
    when the card is dropped outside every group or back on its own place;
    a reorder only within the source group and to another index; a regroup
    only to another group than the source; always for the dragged asset
    and with the index it was dropped at. *)
Theorem handleDragEnd_calls (result : DropResult.t) :
  let source := DropResult.source result in
  (handleDragEnd true true result = None
   <-> DropResult.destination result = None
       \/ DropResult.destination result = Some source)
  /\ (forall groupId assetId newIndex,
        handleDragEnd true true result
        = Some (call_onReorderAsset groupId assetId newIndex) ->
        groupId = DraggableLocation.droppableId source
        /\ assetId = DropResult.draggableId result
        /\ newIndex <> DraggableLocation.index source
        /\ DropResult.destination result
           = Some (DraggableLocation.mk groupId newIndex))
  /\ (forall assetId targetGroupId destinationIndex,
        handleDragEnd true true result
        = Some (call_onRegroupAsset assetId targetGroupId destinationIndex) ->
        targetGroupId <> DraggableLocation.droppableId source
        /\ assetId = DropResult.draggableId result
        /\ DropResult.destination result
           = Some (DraggableLocation.mk targetGroupId destinationIndex)).
Proof.
  destruct result as [[sourceGroup sourceIndex] destination assetId].
  unfold handleDragEnd. simpl.
  destruct destination as [[destGroup destIndex]|]; simpl;
    [destruct (String.eqb_spec sourceGroup destGroup) as [->|Hgroup];
       [destruct (Nat.eqb_spec sourceIndex destIndex) as [->|Hindex]|]|];
    simpl; repeat split; intros;
    repeat match goal with H : _ \/ _ |- _ => destruct H end;
    try discriminate; try congruence; auto.
Qed.

Lemma handleDragEnd_calls_witness :
  DropResult.destination sample_drop
  = Some (DraggableLocation.mk "g2" 2).
Proof.
  destruct (handleDragEnd_calls sample_drop) as (_ & _ & Hregroup).
  destruct (Hregroup "a.jpg" "g2" 2%nat eq_refl) as (_ & _ & Hdest).
  exact Hdest.
Defined.

(** ** The file name editor *)

(** X16.  The editor never saves an empty name, and a name it saves is
    the one the namer returns: saving calls the update exactly when the
    callback was passed and the trimmed input is not empty, with the
    trimmed input for the given group and asset; for every asset whose
    custom file name is the value sent, the generated file name is that
    value; and the editor is closed and cleared in every case. *)
Theorem handleFilenameSave_sends_usable_name
  (trim : string -> string) (onUpdateAssetFilename : bool)
  (editor : Editor.t) (groupId assetId : string) :
  let result :=
    handleFilenameSave trim onUpdateAssetFilename editor groupId assetId in
  (fst result = None
   <-> onUpdateAssetFilename = false
       \/ trim (Editor.editValue editor) = EmptyString)
  /\ (forall sentGroup sentAsset name,
        fst result = Some (sentGroup, sentAsset, name) ->
        sentGroup = groupId /\ sentAsset = assetId
        /\ name = trim (Editor.editValue editor)
        /\ name <> EmptyString
        /\ forall g a i,
            ProcessedAsset.custom_filename a = Some name ->
            generateNewFileName g a i = name)
  /\ snd result = Editor.mk None EmptyString.
Proof.
  unfold handleFilenameSave. simpl.
  destruct onUpdateAssetFilename; simpl;
    [destruct (trim (Editor.editValue editor)) as [|c rest] eqn:Htrim|];
    simpl; repeat split; intros;
    repeat match goal with H : _ \/ _ |- _ => destruct H end;
    try discriminate; try congruence; auto.
  apply generateNewFileName_truthy_custom; congruence.
Qed.

Lemma handleFilenameSave_sends_usable_name_witness :
  generateNewFileName
    (sample_group "g1" standard 7 [])
    (sample_asset "raw.png" IMG story (Some "Hero shot.png")) 0
  = "Hero shot.png".
Proof.
  destruct (handleFilenameSave_sends_usable_name sample_trim true
              (Editor.mk (Some "raw.png") "  Hero shot.png") "g1" "raw.png")
    as (_ & Hsent & _).
  destruct (Hsent "g1" "raw.png" "Hero shot.png" eq_refl)
    as (_ & _ & _ & _ & Hname).
  apply Hname. reflexivity.
Defined.

(** ** Order kept, names never empty *)

Lemma sort_sorted_id {A} (compare : A -> A -> Z) (l : list A) :
  Sorted (in_order compare) l -> sort compare l = l.
Proof.
  induction 1 as [|y l Hl IH Hhd]; [reflexivity|].
  cbn [sort]. rewrite IH. destruct Hhd as [|z l Hyz]; [reflexivity|].
  cbn [sort_insert]. unfold in_order in Hyz.
  destruct (Z.ltb_spec 0 (compare y z)); [lia | reflexivity].
Qed.

Lemma adjacent_Sorted {A} (R : A -> A -> Prop) (l : list A) :
  (forall i a b, l !! i = Some a -> l !! S i = Some b -> R a b) ->
  Sorted R l.
Proof.
  induction l as [|x l IH]; intros Hadj; [constructor|].
  constructor.
  - apply IH. intros i a b Ha Hb. exact (Hadj (S i) a b Ha Hb).
  - destruct l as [|y l]; constructor.
    exact (Hadj 0%nat x y eq_refl eq_refl).
Qed.

(** X17.  A snapshot that is already in display order is displayed as it
    is: when every group's first file name starts with a number below 2^53
    and these numbers ascend along the snapshot, the displayed list is the
    snapshot's list, group for group. *)
Theorem sortedGroups_keeps_ordered
  (localeCompare : string -> string -> Z) (data : GroupedAssets.t) :
  (forall g, In g (GroupedAssets.groups data) -> exists n, leading_number g n) ->
  ascending_by_leading_number (GroupedAssets.groups data) ->
  sortedGroups localeCompare (Some data) = GroupedAssets.groups data.
Proof.
  intros _ Hascending. simpl. apply sort_sorted_id, adjacent_Sorted.
  intros i a b Ha Hb.
  destruct (Hascending i a b Ha Hb) as (m & n & Hm & Hn & Hle).
  unfold in_order, compareGroups. rewrite Hm, Hn. lia.
Qed.

Lemma sortedGroups_keeps_ordered_witness :
  sortedGroups sample_localeCompare
    (Some (GroupedAssets.mk [sure_group; unsure_group] []))
  = [sure_group; unsure_group].
Proof.
  apply (sortedGroups_keeps_ordered sample_localeCompare
           (GroupedAssets.mk [sure_group; unsure_group] [])).
  - intros g [<- | [<- | []]].
    + exists 1. split; [reflexivity | lia].
    + exists 2. split; [reflexivity | lia].
  - intros [|i] a b Ha Hb; simpl in Ha, Hb; [|destruct i; discriminate Hb].
    injection Ha as <-. injection Hb as <-.
    exists 1, 2. repeat split. lia.
Defined.

(** X18.  The namer never returns the empty string, whatever the group,
    the asset (with or without a custom name, with any source name) and
    the index are. *)
Theorem generateNewFileName_never_empty
  (g : AdGroup.t) (a : ProcessedAsset.t) (i : nat) :
  generateNewFileName g a i <> EmptyString.
Proof.
  assert (Hpad : forall w n rest,
             JS.padStart (JS.String_ n) w "0" +:+ String "_" rest
             <> EmptyString).
  { intros w n rest. destruct (JS.padStart (JS.String_ n) w "0"); discriminate. }
  unfold generateNewFileName.
  destruct (ProcessedAsset.custom_filename a) as [[|c s]|]; simpl;
    try discriminate; destruct (AdGroup.group_type g); apply Hpad.
Qed.

(** ** Documented names and padded numbers *)

(** X20.  For a source name with an extension, the derived file name is
    the documented one: when the asset has no custom file name and its
    source name has a suffix after its last dot that is not empty, the
    generated name is, for a carousel, the ad number padded to 4 digits,
    [_CAR_Card], the index plus one padded to 2 digits, a dot and that
    suffix, and for a standard or single group, the ad number padded to 3
    digits, the type token, the placement token, a dot and that suffix. *)
Theorem generateNewFileName_documented
  (g : AdGroup.t) (a : ProcessedAsset.t) (i : nat) (suffix : string) :
  ProcessedAsset.custom_filename a = None ->
  after_last_dot (Asset.name (ProcessedAsset.asset a)) = Some suffix ->
  suffix <> EmptyString ->
  documented_extension (Asset.name (ProcessedAsset.asset a)) = suffix
  /\ generateNewFileName g a i = documented_filename g a i.
Proof.
  intros Hunset Hsuffix Hne. split.
  - unfold documented_extension. rewrite Hsuffix. reflexivity.
  - unfold generateNewFileName, documented_filename.
    rewrite Hunset. cbn [JS.truthy_opt].
    rewrite !padStart_String_zero_padded.
    rewrite (extension_with_suffix _ suffix Hsuffix Hne).
    destruct (AdGroup.group_type g); reflexivity.
Qed.

Lemma generateNewFileName_documented_witness :
  generateNewFileName
    (sample_group "g1" carousel 7 [])
    (sample_asset "summer.card.png" IMG unknown None) 11
  = "0007_CAR_Card12.png"
  /\ generateNewFileName
       (sample_group "g2" standard 1234 [])
       (sample_asset "clip.final.mov" VID feed None) 1
     = "1234_VID_feed.mov".
Proof.
  split.
  - rewrite (proj2 (generateNewFileName_documented
                      (sample_group "g1" carousel 7 [])
                      (sample_asset "summer.card.png" IMG unknown None) 11
                      "png" eq_refl eq_refl ltac:(discriminate))).
    reflexivity.
  - rewrite (proj2 (generateNewFileName_documented
                      (sample_group "g2" standard 1234 [])
                      (sample_asset "clip.final.mov" VID feed None) 1
                      "mov" eq_refl eq_refl ltac:(discriminate))).
    reflexivity.
Defined.


